(** * Resume parser (app.py): a shallow embedding and its properties

    The development follows [app.py]:

    - Python text is a sequence of characters; here characters are the 256
      code points of Latin-1 ([ascii]) and the Unicode-aware classes of the
      [re] module ([\d], [\s], [\w]) and of [str.strip]/[str.splitlines] are
      the restrictions of Python's classes to that range.
    - The regular expressions of the program are terms of a small regex
      syntax run by a backtracking matcher with Python's priorities
      (leftmost start, greedy repetition, optional group tried first).
    - The result dictionary is a [gmap string value]; subscripting a missing
      key, calling a string method on a list and the like are errors of an
      exception monad, as they are in Python.
    - The collaborators (entity recognizer, name parser, PDF library, OCR)
      are parameters; the PDF path logs each collaborator call in a trace. *)

From Stdlib Require Import Ascii String.
From stdpp Require Import base option list strings gmap.

Local Open Scope nat_scope.
Local Open Scope bool_scope.

(** ** Text *)

Abbreviation str := (list ascii).

Definition txt (s : string) : str := list_ascii_of_string s.

Definition code (c : ascii) : nat := nat_of_ascii c.

Definition between (lo hi : nat) (c : ascii) : bool :=
  (lo <=? code c) && (code c <=? hi).

Definition is_chr (x : ascii) (c : ascii) : bool := Ascii.eqb x c.

(** [\d] : the decimal digits; on Latin-1 these are 0-9. *)
Definition is_digit (c : ascii) : bool := between 48 57 c.

(** [\s] and [str.isspace]: TAB, LF, VT, FF, CR, FS, GS, RS, US, SPACE,
    NEL and NBSP. *)
Definition is_space (c : ascii) : bool :=
  between 9 13 c || between 28 32 c || (code c =? 133) || (code c =? 160).

Definition is_AZ (c : ascii) : bool := between 65 90 c.
Definition is_az (c : ascii) : bool := between 97 122 c.

(** [\w]: alphanumeric characters and the underscore; on Latin-1 the
    alphanumerics beyond ASCII are the letters, superscript digits,
    ordinal indicators, micro sign and vulgar fractions. *)
Definition is_word (c : ascii) : bool :=
  is_digit c || is_AZ c || is_az c || (code c =? 95)
  || (code c =? 170) || between 178 179 c || (code c =? 181)
  || between 185 186 c || between 188 190 c
  || between 192 214 c || between 216 246 c || between 248 255 c.

(** Case mappings, as used by the IGNORECASE flag on the ASCII classes and
    literals of this program (no other Latin-1 character maps into ASCII). *)
Definition to_lower (c : ascii) : ascii :=
  if is_AZ c then ascii_of_nat (code c + 32) else c.
Definition to_upper (c : ascii) : ascii :=
  if is_az c then ascii_of_nat (code c - 32) else c.

(** A character class under IGNORECASE: the character matches when its
    lower-case or its upper-case form is in the class. *)
Definition ci (p : ascii → bool) (c : ascii) : bool :=
  p (to_lower c) || p (to_upper c).

(** [str.strip()] *)
Fixpoint lstrip (s : str) : str :=
  match s with
  | c :: s' => if is_space c then lstrip s' else s
  | [] => []
  end.
Definition strip (s : str) : str := rev (lstrip (rev (lstrip s))).

(** [str.splitlines()]: lines end at LF, VT, FF, CR (CR LF counts once),
    FS, GS, RS and NEL; the terminators are dropped and a final line is
    produced only when it is not empty. *)
Definition is_linebreak (c : ascii) : bool :=
  between 10 13 c || between 28 30 c || (code c =? 133).

Fixpoint splitlines_from (cur : str) (s : str) : list str :=
  match s with
  | [] => match cur with [] => [] | _ => [rev cur] end
  | c :: s' =>
      if is_linebreak c then
        match s' with
        | d :: s'' =>
            if (code c =? 13) && (code d =? 10)
            then rev cur :: splitlines_from [] s''
            else rev cur :: splitlines_from [] s'
        | [] => rev cur :: splitlines_from [] s'
        end
      else splitlines_from (c :: cur) s'
  end.

Definition splitlines (s : str) : list str := splitlines_from [] s.

(** [s[i:j]] for [0 <= i <= j]. *)
Definition substr (s : str) (i j : nat) : str := take (j - i) (drop i s).

(** ** Regular expressions *)

Module Re.

(** The fragment of Python's regex syntax that the program uses.  A
    repetition always ranges over a single character class, as in every
    pattern of [app.py]. *)
Inductive regex : Type :=
  | Eps
  | Chr (p : ascii → bool)                         (* a class or a literal *)
  | Rep (p : ascii → bool) (lo : nat) (hi : option nat)  (* p{lo,hi}, greedy *)
  | Seq (r1 r2 : regex)
  | Opt (r : regex)                                (* (?:r)?  greedy *)
  | Grp (i : nat) (r : regex)                      (* capturing group i *)
  | Bol                                            (* ^ *)
  | Wordb.                                         (* \b *)

(** The matcher's position: the text before it (nearest character first)
    and the text after it. *)
Record cursor := Cursor { before : str; after : str }.

Definition pos (c : cursor) : nat := length (before c).

(** Captures: group index and span, the most recent first. *)
Definition caps := list (nat * (nat * nat)).

Definition word_before (c : cursor) : bool :=
  match before c with a :: _ => is_word a | [] => false end.
Definition word_after (c : cursor) : bool :=
  match after c with a :: _ => is_word a | [] => false end.
Definition at_boundary (c : cursor) : bool :=
  xorb (word_before c) (word_after c).

Definition can_more (hi : option nat) : bool :=
  match hi with Some 0 => false | _ => true end.

(** Greedy repetition: take as many characters as allowed, then give
    them back one at a time until the rest of the pattern matches. *)
Fixpoint rep_go {R} (p : ascii → bool) (lo : nat) (hi : option nat)
    (bef aft : str) (k : str → str → option R) : option R :=
  let stop := match lo with 0 => k bef aft | S _ => None end in
  match aft with
  | a :: aft' =>
      if p a && can_more hi then
        match rep_go p (pred lo) (pred <$> hi) (a :: bef) aft' k with
        | Some r => Some r
        | None => stop
        end
      else stop
  | [] => stop
  end.

(** The backtracking matcher in continuation-passing style: [k] is the
    rest of the pattern. *)
Fixpoint exec {R} (r : regex) (c : cursor) (g : caps)
    (k : cursor → caps → option R) : option R :=
  match r with
  | Eps => k c g
  | Chr p =>
      match after c with
      | a :: aft => if p a then k (Cursor (a :: before c) aft) g else None
      | [] => None
      end
  | Rep p lo hi =>
      rep_go p lo hi (before c) (after c) (λ b a, k (Cursor b a) g)
  | Seq r1 r2 => exec r1 c g (λ c' g', exec r2 c' g' k)
  | Opt r1 =>
      match exec r1 c g k with
      | Some x => Some x
      | None => k c g
      end
  | Grp i r1 => exec r1 c g (λ c' g', k c' ((i, (pos c, pos c')) :: g'))
  | Bol => match before c with [] => k c g | _ => None end
  | Wordb => if at_boundary c then k c g else None
  end.

(** Number of capturing groups of a pattern. *)
Fixpoint ngroups (r : regex) : nat :=
  match r with
  | Seq r1 r2 => ngroups r1 `max` ngroups r2
  | Opt r1 => ngroups r1
  | Grp i r1 => i `max` ngroups r1
  | _ => 0
  end.

(** A match object. *)
Record match_obj := Match {
  m_string : str;
  m_start : nat;
  m_end : nat;
  m_caps : caps;
  m_ngroups : nat
}.

(** [m.group()] *)
Definition group0 (m : match_obj) : str :=
  substr (m_string m) (m_start m) (m_end m).

Definition whole (c : cursor) : str := rev (before c) ++ after c.

(** One attempt at the cursor; with [must_advance] an empty match is
    refused (and backtracked into). *)
Definition attempt (must_advance : bool) (r : regex) (c : cursor)
    : option match_obj :=
  exec r c []
    (λ c' g,
       if must_advance && (pos c' =? pos c) then None
       else Some (Match (whole c) (pos c) (pos c') g (ngroups r))).

(** [re.match(r, s)]: one attempt at the start of the text. *)
Definition re_match (r : regex) (s : str) : option match_obj :=
  attempt false r (Cursor [] s).

(** [re.search(r, s)]: the first start position, from the left, at which
    an attempt succeeds. *)
Fixpoint search_from (r : regex) (bef aft : str) : option match_obj :=
  match attempt false r (Cursor bef aft) with
  | Some m => Some m
  | None =>
      match aft with
      | [] => None
      | a :: aft' => search_from r (a :: bef) aft'
      end
  end.

Definition re_search (r : regex) (s : str) : option match_obj :=
  search_from r [] s.

(** [re.sub(r, repl, s)] for a literal replacement: the matches are found
    from the left and do not overlap; text between matches is copied.
    [skip] counts the characters still covered by the last match.  After an
    empty match the next one must advance. *)
Fixpoint sub_from (r : regex) (repl : str) (skip : nat) (bef aft : str)
    : str :=
  let next (n : nat) : str :=          (* move over one character *)
    match aft with
    | a :: aft' => sub_from r repl n (a :: bef) aft'
    | [] => []
    end in
  let copy : str :=                    (* no match here: keep the character *)
    match aft with
    | a :: aft' => a :: sub_from r repl 0 (a :: bef) aft'
    | [] => []
    end in
  match skip with
  | S n => next n
  | 0 =>
      match attempt false r (Cursor bef aft) with
      | Some m =>
          if m_end m =? m_start m then
            repl ++
            match attempt true r (Cursor bef aft) with
            | Some m' => repl ++ next (m_end m' - m_start m' - 1)
            | None => copy
            end
          else repl ++ next (m_end m - m_start m - 1)
      | None => copy
      end
  end.

Definition re_sub (r : regex) (repl : str) (s : str) : str :=
  sub_from r repl 0 [] s.

(** A literal string, and a literal string under IGNORECASE. *)
Definition lit (s : string) : regex :=
  foldr (λ x r, Seq (Chr (is_chr x)) r) Eps (txt s).
Definition lit_ci (s : string) : regex :=
  foldr (λ x r, Seq (Chr (ci (is_chr x))) r) Eps (txt s).

End Re.

Import Re.

(** ** The patterns of [app.py] *)

Definition one_of (s : string) (c : ascii) : bool :=
  existsb (λ x, Ascii.eqb x c) (txt s).

(** [[^\d]] *)
Definition pat_non_digit : regex := Chr (λ c, negb (is_digit c)).

(** [(?i)^([A-Z][a-z]+)\s+([A-Z][a-z]+)] *)
Definition pat_name_line : regex :=
  Seq Bol
    (Seq (Grp 1 (Seq (Chr (ci is_AZ)) (Rep (ci is_az) 1 None)))
       (Seq (Rep is_space 1 None)
          (Grp 2 (Seq (Chr (ci is_AZ)) (Rep (ci is_az) 1 None))))).

(** [(?i)^name[:\s]*([A-Z][a-z]+\s[A-Z][a-z]+)]; [name_pair] is the
    inside of its group. *)
Definition name_pair : regex :=
  Seq (Chr (ci is_AZ))
    (Seq (Rep (ci is_az) 1 None)
       (Seq (Chr is_space)
          (Seq (Chr (ci is_AZ)) (Rep (ci is_az) 1 None)))).

Definition pat_name_label : regex :=
  Seq Bol
    (Seq (lit_ci "name")
       (Seq (Rep (λ c, is_chr ":" c || is_space c) 0 None)
          (Grp 1 name_pair))).

(** [\b[a-zA-Z0-9_.+-]+@[a-zA-Z0-9-]+\.[a-zA-Z0-9-.]+\b] *)
Definition email_local (c : ascii) : bool :=
  is_az c || is_AZ c || is_digit c || one_of "_.+-" c.
Definition email_domain (c : ascii) : bool :=
  is_az c || is_AZ c || is_digit c || one_of "-" c.
Definition email_tail (c : ascii) : bool :=
  is_az c || is_AZ c || is_digit c || one_of "-." c.

Definition pat_email : regex :=
  Seq Wordb
    (Seq (Rep email_local 1 None)
       (Seq (Chr (is_chr "@"))
          (Seq (Rep email_domain 1 None)
             (Seq (Chr (is_chr "."))
                (Seq (Rep email_tail 1 None) Wordb))))).

(** The phone fallback: [\b], then the optional non-capturing group
    [\+91] followed by any number of [[\s\-]], then [\d{10,13}\b]. *)
Definition phone_sep (c : ascii) : bool := is_space c || is_chr "-" c.

Definition pat_phone : regex :=
  Seq Wordb
    (Seq (Opt (Seq (lit "+91") (Rep phone_sep 0 None)))
       (Seq (Rep is_digit 10 (Some 13)) Wordb)).

(** [(https?://)?(www\.)?linkedin\.com/in/[a-zA-Z0-9_-]+] with
    [re.IGNORECASE], and the same for GitHub. *)
Definition user_char (c : ascii) : bool :=
  is_az c || is_AZ c || is_digit c || one_of "_-" c.

Definition pat_site (site : string) : regex :=
  Seq (Opt (Grp 1 (Seq (lit_ci "http")
                     (Seq (Rep (ci (is_chr "s")) 0 (Some 1)) (lit_ci "://")))))
    (Seq (Opt (Grp 2 (lit_ci "www.")))
       (Seq (lit_ci site) (Rep (ci user_char) 1 None))).

Definition pat_linkedin : regex := pat_site "linkedin.com/in/".
Definition pat_github : regex := pat_site "github.com/".

(** ** Exceptions *)

Inductive exn : Type :=
  | KeyError (k : string)
  | AttributeError
  | TypeError
  | IndexError
  | HTTPException (status_code : nat) (detail : str).

Inductive result (A : Type) : Type :=
  | Ok (a : A)
  | Raise (e : exn).
Arguments Ok {A} a.
Arguments Raise {A} e.

#[global] Instance result_ret : MRet result := λ A a, Ok a.
#[global] Instance result_bind : MBind result :=
  λ A B f m, match m with Ok a => f a | Raise e => Raise e end.

(** ** Values and the result dictionary *)

Inductive value : Type :=
  | VStr (s : str)
  | VList (l : list str).

(** Python truth value: empty strings and empty lists are false. *)
Definition truthy (v : value) : bool :=
  match v with
  | VStr [] | VList [] => false
  | _ => true
  end.

(** [d[k]] *)
Definition getitem (d : gmap string value) (k : string) : result value :=
  match d !! k with
  | Some v => Ok v
  | None => Raise (KeyError k)
  end.

(** A value used where a string is required. *)
Definition as_str (v : value) : result str :=
  match v with
  | VStr s => Ok s
  | VList _ => Raise TypeError
  end.

(** [v.append(x)]: only lists have it. *)
Definition append (v : value) (x : str) : result value :=
  match v with
  | VList l => Ok (VList (l ++ [x]))
  | VStr _ => Raise AttributeError
  end.

(** [m.group(i)] for [i >= 1]: an error for a group the pattern does not
    have, [None] for a group that took no part in the match. *)
Definition group (m : match_obj) (i : nat) : result (option str) :=
  if m_ngroups m <? i then Raise IndexError
  else
    Ok (match list_find (λ e, e.1 = i) (m_caps m) with
        | Some (_, (_, (s, e))) => Some (substr (m_string m) s e)
        | None => None
        end).

(** [x.strip()] where [x] may be [None]. *)
Definition strip_opt (x : option str) : result str :=
  match x with
  | Some s => Ok (strip s)
  | None => Raise AttributeError
  end.

(** ** The program *)

(** An entity span of the recognizer: [ent.text] and [ent.label_]. *)
Record ent := Ent { ent_text : str; label_ : string }.

(** The parts of a parsed human name that the program reads. *)
Record human_name := Name { hn_first : str; hn_last : str }.

(** [is_valid_phone] (lines 42-44). *)
Definition is_valid_phone (number : str) : bool :=
  let cleaned := re_sub pat_non_digit [] number in
  (10 <=? length cleaned) && (length cleaned <=? 13).

Definition label_is (e : ent) (l : string) : bool := String.eqb (label_ e) l.

Section Pipeline.

(** [nlp(text).ents] and [HumanName(full_name)]. *)
Variable nlp : str → list ent.
Variable HumanName : str → human_name.

(** The body of the loop over [doc.ents] (lines 60-65); [and] evaluates
    its second operand only when the first holds. *)
Definition ent_step (d : gmap string value) (e : ent)
    : result (gmap string value) :=
  c1 ← (if label_is e "PERSON"
        then n ← getitem d "name"; mret (negb (truthy n))
        else mret false);
  if c1 : bool then mret (<["name" := VStr (strip (ent_text e))]> d)
  else
    c2 ← (if label_is e "GPE" || label_is e "LOC"
          then l ← getitem d "location"; mret (negb (truthy l))
          else mret false);
    if c2 : bool then mret (<["location" := VStr (strip (ent_text e))]> d)
    else if label_is e "SKILL" then
      s ← getitem d "skills";
      s' ← append s (strip (ent_text e));
      mret (<["skills" := s']> d)
    else mret d.

Fixpoint ent_loop (ents : list ent) (d : gmap string value)
    : result (gmap string value) :=
  match ents with
  | [] => mret d
  | e :: ents' => d' ← ent_step d e; ent_loop ents' d'
  end.

(** The three statements that split the resolved name
    (lines 69-71, 79-81, 89-91). *)
Definition parse_name (d : gmap string value)
    : result (gmap string value) :=
  n ← getitem d "name";
  s ← as_str n;
  let parsed_name := HumanName s in
  let d := <["First Name" := VStr (strip (hn_first parsed_name))]> d in
  mret (<["Last Name" := VStr (strip (hn_last parsed_name))]> d).

(** The loop over [lines[:10]] (lines 75-82). *)
Fixpoint name_line_loop (lines : list str) (d : gmap string value)
    : result (gmap string value) :=
  match lines with
  | [] => mret d
  | line :: lines' =>
      match re_match pat_name_line (strip line) with
      | Some name_match =>
          parse_name (<["name" := VStr (strip (group0 name_match))]> d)
      | None => name_line_loop lines' d
      end
  end.

(** The loop over all lines (lines 85-92). *)
Fixpoint name_label_loop (lines : list str) (d : gmap string value)
    : result (gmap string value) :=
  match lines with
  | [] => mret d
  | line :: lines' =>
      match re_search pat_name_label (strip line) with
      | Some m =>
          g ← group m 1;
          s ← strip_opt g;
          parse_name (<["name" := VStr s]> d)
      | None => name_label_loop lines' d
      end
  end.

(** The loop over the phone candidates (lines 101-104). *)
Fixpoint phone_loop (candidates : list str) (d : gmap string value)
    : gmap string value :=
  match candidates with
  | [] => d
  | num :: candidates' =>
      if is_valid_phone num then <["phone" := VStr num]> d
      else phone_loop candidates' d
  end.

(** A field set to the whole match of a search, when there is one. *)
Definition set_if_found (key : string) (r : regex) (text : str)
    (d : gmap string value) : gmap string value :=
  match re_search r text with
  | Some m => <[key := VStr (group0 m)]> d
  | None => d
  end.

(** [extract_info_with_spacy_regex] (lines 47-122). *)
Definition extract_info_with_spacy_regex (text : str)
    : result (gmap string value) :=
  let ents := nlp text in
  let extracted_info : gmap string value :=
    {[ "name" := VStr []; "email" := VStr []; "phone" := VStr [];
       "location" := VStr []; "skills" := VList [] ]} in
  let lines := splitlines text in
  d ← ent_loop ents extracted_info;
  (* Parse name *)
  n ← getitem d "name";
  d ← (if truthy n then parse_name d else mret d);
  (* Name fallback using regex *)
  n ← getitem d "name";
  d ← (if negb (truthy n) then name_line_loop (take 10 lines) d else mret d);
  n ← getitem d "name";
  d ← (if negb (truthy n) then name_label_loop lines d else mret d);
  (* Email *)
  let d := set_if_found "email" pat_email text d in
  (* Phone using the PHONE entities first *)
  let phone_candidates :=
    (λ e, strip (ent_text e)) <$> filter (λ e, label_is e "PHONE" = true) ents in
  let d := phone_loop phone_candidates d in
  (* Regex fallback if needed *)
  p ← getitem d "phone";
  let d :=
    if negb (truthy p) then
      match re_search pat_phone text with
      | Some fallback_match =>
          if is_valid_phone (group0 fallback_match)
          then <["phone" := VStr (group0 fallback_match)]> d
          else d
      | None => d
      end
    else d in
  (* LinkedIn, GitHub *)
  let d := set_if_found "linkedin" pat_linkedin text d in
  let d := set_if_found "github" pat_github text d in
  mret d.

End Pipeline.

(** ** The PDF path and the two endpoints *)

(** Calls to the collaborators, in the order they happen. *)
Inductive event (page : Type) : Type :=
  | FitzOpen                 (* fitz.open(stream=..., filetype="pdf") *)
  | GetText (p : page)       (* page.get_text() *)
  | OcrPage (p : page)       (* get_pixmap(dpi=300), Image.open, image_to_string *)
  | DocClose                 (* doc.close() *)
  | FileRead.                (* await file.read() *)
Arguments FitzOpen {page}.
Arguments GetText {page} p.
Arguments OcrPage {page} p.
Arguments DocClose {page}.
Arguments FileRead {page}.

(** Computations that log collaborator calls and may raise. *)
Definition io (page A : Type) : Type :=
  list (event page) → result A * list (event page).

#[global] Instance io_ret page : MRet (io page) := λ A a t, (Ok a, t).
#[global] Instance io_bind page : MBind (io page) :=
  λ A B f m t,
    match m t with
    | (Ok a, t') => f a t'
    | (Raise e, t') => (Raise e, t')
    end.

Definition call {page A} (e : event page) (a : A) : io page A :=
  λ t, (Ok a, t ++ [e]).
Definition raise {page A} (e : exn) : io page A := λ t, (Raise e, t).
Definition lift {page A} (r : result A) : io page A := λ t, (r, t).

(** [try: body  except Exception as e: handler(e)] *)
Definition try_except {page A} (body : io page A) (handler : exn → io page A)
    : io page A :=
  λ t,
    match body t with
    | (Ok a, t') => (Ok a, t')
    | (Raise e, t') => handler e t'
    end.

(** An uploaded file: its declared content type and its contents. *)
Record upload_file := Upload {
  content_type : string;
  file_contents : list Byte.byte
}.

Definition newline : ascii := ascii_of_nat 10.

Section Service.

Variable page : Type.
Variable nlp : str → list ent.
Variable HumanName : str → human_name.
(** The pages of a document, the text layer of a page and the text that
    OCR reads off the rendered page. *)
Variable fitz_open : list Byte.byte → list page.
Variable get_text : page → str.
Variable image_to_string : page → str.
(** [str(e)] *)
Variable exn_str : exn → str.

(** [for page in doc: text = body(text, page)] *)
Fixpoint for_pages (body : str → page → io page str) (doc : list page)
    (text : str) : io page str :=
  match doc with
  | [] => mret text
  | p :: doc' => text' ← body text p; for_pages body doc' text'
  end.

(** [extract_text_with_ocr] (lines 19-28). *)
Definition extract_text_with_ocr (file_bytes : list Byte.byte)
    : io page str :=
  doc ← call FitzOpen (fitz_open file_bytes);
  text ← for_pages
           (λ text p,
              page_text ← call (OcrPage p) (image_to_string p);
              mret (text ++ (page_text ++ [newline])))
           doc [];
  _ ← call DocClose ();
  mret text.

(** [extract_text_from_pdf] (lines 31-39). *)
Definition extract_text_from_pdf (file_bytes : list Byte.byte)
    : io page str :=
  doc ← call FitzOpen (fitz_open file_bytes);
  text ← for_pages
           (λ text p, t ← call (GetText p) (get_text p); mret (text ++ t))
           doc [];
  _ ← call DocClose ();
  if length (strip text) <? 100 then extract_text_with_ocr file_bytes
  else mret text.

(** [parse_resume] (lines 127-133). *)
Definition parse_resume (text : str) : io page (gmap string value) :=
  try_except
    (lift (extract_info_with_spacy_regex nlp HumanName text))
    (λ e, raise (HTTPException 500
                   (txt "Error processing resume: " ++ exn_str e))).

(** [parse_resume_pdf] (lines 135-145). *)
Definition parse_resume_pdf (file : upload_file)
    : io page (gmap string value) :=
  try_except
    (_ ← (if negb (String.eqb (content_type file) "application/pdf")
          then raise (HTTPException 400 (txt "File must be a PDF"))
          else mret ());
     file_bytes ← call FileRead (file_contents file);
     text ← extract_text_from_pdf file_bytes;
     lift (extract_info_with_spacy_regex nlp HumanName text))
    (λ e, raise (HTTPException 500
                   (txt "Error processing PDF: " ++ exn_str e))).

End Service.

(** * Properties *)

(** ** Characters *)

(** Facts about the character classes are checked on all 256 characters. *)
Ltac by_cases_on_char c :=
  destruct c as [[] [] [] [] [] [] [] []]; vm_compute; intuition congruence.

Lemma space_not_word c : is_space c = true → is_word c = false.
Proof. by_cases_on_char c. Qed.

Lemma letter_not_space c : ci is_az c = true → is_space c = false.
Proof. by_cases_on_char c. Qed.

Lemma capital_is_letter c : ci is_AZ c = ci is_az c.
Proof. by_cases_on_char c. Qed.

Lemma sep_not_digit c : phone_sep c = true → is_digit c = false.
Proof. by_cases_on_char c. Qed.

Lemma space_not_local c : is_space c = true → email_local c = false.
Proof. by_cases_on_char c. Qed.

Lemma space_not_tail c : is_space c = true → email_tail c = false.
Proof. by_cases_on_char c. Qed.

Lemma is_chr_eq x c : is_chr x c = true → c = x.
Proof. unfold is_chr. intros H. symmetry. by apply Ascii.eqb_eq. Qed.

(** ** [re.sub] with the pattern of [is_valid_phone] *)

(** The digits of a string, in order: what is left when every non-digit
    character is stripped. *)
Definition digits_of (s : str) : str := filter (λ c, is_digit c = true) s.

Lemma sub_non_digit bef aft :
  sub_from pat_non_digit [] 0 bef aft = digits_of aft.
Proof.
  revert bef. induction aft as [|a aft IH]; intros bef.
  - reflexivity.
  - unfold digits_of. rewrite filter_cons. fold (digits_of aft).
    cbn [sub_from attempt exec pat_non_digit after before].
    destruct (is_digit a) eqn:Hd; cbn [negb].
    + rewrite IH. by rewrite decide_True.
    + cbn [m_end m_start pos before length andb].
      replace (S (length bef) =? length bef) with false
        by (symmetry; apply Nat.eqb_neq; lia).
      replace (S (length bef) - length bef - 1) with 0 by lia.
      rewrite IH. by rewrite decide_False.
Qed.

Lemma re_sub_non_digit s : re_sub pat_non_digit [] s = digits_of s.
Proof. apply sub_non_digit. Qed.

(** C2. [is_valid_phone] accepts a string exactly when the string left
    after stripping every non-digit character has between 10 and 13
    characters (so it rejects 9 or fewer and 14 or more), and it accepts
    "+91 98765 43210", whose 12 digits are 919876543210. *)
Theorem is_valid_phone_iff_digit_count :
  (∀ s : str,
     is_valid_phone s = true ↔
     10 ≤ length (digits_of s) ∧ length (digits_of s) ≤ 13)
  ∧ digits_of (txt "+91 98765 43210") = txt "919876543210"
  ∧ is_valid_phone (txt "+91 98765 43210") = true.
Proof.
  split; [|split; reflexivity].
  intros s. unfold is_valid_phone. rewrite re_sub_non_digit.
  rewrite andb_true_iff, !Nat.leb_le. reflexivity.
Qed.

(** ** The matcher *)

(** The strings a pattern can consume, anchors aside. *)
Fixpoint lang (r : regex) (w : str) : Prop :=
  match r with
  | Eps | Bol | Wordb => w = []
  | Chr p => ∃ a, w = [a] ∧ p a = true
  | Rep p lo hi =>
      Forall (λ a, p a = true) w ∧ lo ≤ length w ∧
      (∀ h, hi = Some h → length w ≤ h)
  | Seq r1 r2 => ∃ w1 w2, w = w1 ++ w2 ∧ lang r1 w1 ∧ lang r2 w2
  | Opt r1 => w = [] ∨ lang r1 w
  | Grp _ r1 => lang r1 w
  end.

(** [c'] is [c] moved over [w]. *)
Definition moved (c : cursor) (w : str) (c' : cursor) : Prop :=
  after c = w ++ after c' ∧ before c' = rev w ++ before c.

Lemma moved_nil c : moved c [] c.
Proof. by split. Qed.

Lemma moved_app c1 c2 c3 w1 w2 :
  moved c1 w1 c2 → moved c2 w2 c3 → moved c1 (w1 ++ w2) c3.
Proof.
  intros [Ha1 Hb1] [Ha2 Hb2]. split.
  - by rewrite Ha1, Ha2, app_assoc.
  - by rewrite Hb2, Hb1, rev_app_distr, app_assoc.
Qed.

Lemma moved_pos c w c' : moved c w c' → pos c' = pos c + length w.
Proof.
  intros [_ Hb]. unfold pos. rewrite Hb, length_app, length_rev. lia.
Qed.

Lemma moved_whole c w c' : moved c w c' → whole c' = whole c.
Proof.
  intros [Ha Hb]. unfold whole.
  by rewrite Hb, Ha, rev_app_distr, rev_involutive, app_assoc.
Qed.

(** The text between two positions of a match is what was consumed. *)
Lemma moved_substr c w c' :
  moved c w c' → substr (whole c) (pos c) (pos c') = w.
Proof.
  intros Hm. rewrite (moved_pos _ _ _ Hm). destruct Hm as [Ha _].
  unfold substr, whole, pos. rewrite Ha.
  replace (length (before c) + length w - length (before c))
    with (length w) by lia.
  rewrite drop_app_length' by (by rewrite length_rev).
  by rewrite take_app_length.
Qed.

Lemma rep_go_sound {R} p (k : str → str → option R) res aft :
  ∀ lo hi bef,
    rep_go p lo hi bef aft k = Some res →
    ∃ w aft', aft = w ++ aft' ∧ Forall (λ a, p a = true) w ∧
              lo ≤ length w ∧ (∀ h, hi = Some h → length w ≤ h) ∧
              k (rev w ++ bef) aft' = Some res.
Proof.
  assert (Hstop : ∀ lo hi bef aft0,
    match lo with 0 => k bef aft0 | S _ => None end = Some res →
    ∃ w aft', aft0 = w ++ aft' ∧ Forall (λ a, p a = true) w ∧
              lo ≤ length w ∧ (∀ h, hi = Some h → length w ≤ h) ∧
              k (rev w ++ bef) aft' = Some res).
  { intros [|lo] hi bef aft0 H; [|done].
    exists [], aft0. repeat split; [constructor | done | simpl; lia | done]. }
  induction aft as [|a aft IH]; intros lo hi bef H; cbn [rep_go] in H.
  - by apply Hstop.
  - destruct (p a && can_more hi) eqn:Hpa; [|by apply Hstop].
    apply andb_true_iff in Hpa as [Hp Hmore].
    destruct (rep_go p (pred lo) (pred <$> hi) (a :: bef) aft k) eqn:Hrec;
      [|by apply Hstop].
    injection H as ->.
    apply IH in Hrec as (w & aft' & -> & Hall & Hlo & Hhi & Hk).
    exists (a :: w), aft'. repeat split.
    + by constructor.
    + simpl. lia.
    + intros h ->. destruct h as [|h]; [done|].
      specialize (Hhi h eq_refl). simpl. lia.
    + simpl. by rewrite <- app_assoc.
Qed.

(** Soundness: a successful run consumed a string of the pattern's
    language and then ran the continuation. *)
Lemma exec_sound {R} r :
  ∀ c g (k : cursor → caps → option R) res,
    exec r c g k = Some res →
    ∃ w c' g', moved c w c' ∧ lang r w ∧ k c' g' = Some res.
Proof.
  induction r as [|p|p lo hi|r1 IH1 r2 IH2|r1 IH1|i r1 IH1| |];
    intros c g k res H; cbn [exec] in H.
  - exists [], c, g. split_and!; [apply moved_nil|done..].
  - destruct (after c) as [|a aft] eqn:Ha; [done|].
    destruct (p a) eqn:Hp; [|done].
    exists [a], (Cursor (a :: before c) aft), g.
    split_and!; [by split|simpl; eauto|done].
  - apply rep_go_sound in H as (w & aft' & Ha & Hall & Hlo & Hhi & Hk).
    exists w, (Cursor (rev w ++ before c) aft'), g.
    split_and!; [by split|by simpl|done].
  - apply IH1 in H as (w1 & c1 & g1 & Hm1 & Hl1 & H).
    apply IH2 in H as (w2 & c2 & g2 & Hm2 & Hl2 & H).
    exists (w1 ++ w2), c2, g2. split; [by eapply moved_app|].
    split; [|done]. simpl. eauto.
  - destruct (exec r1 c g k) eqn:H1.
    + injection H as ->. apply IH1 in H1 as (w & c' & g' & Hm & Hl & Hk).
      exists w, c', g'. simpl. eauto.
    + exists [], c, g. split_and!; [apply moved_nil|by left|done].
  - apply IH1 in H as (w & c' & g' & Hm & Hl & Hk). simpl. eauto 10.
  - destruct (before c); [|done]. exists [], c, g.
    split_and!; [apply moved_nil|done..].
  - destruct (at_boundary c); [|done]. exists [], c, g.
    split_and!; [apply moved_nil|done..].
Qed.

(** Text that is empty or begins with a character outside the class. *)
Definition stops (p : ascii → bool) (aft : str) : Prop :=
  match aft with
  | b :: _ => p b = false
  | [] => True
  end.

(** Greedy repetition without upper bound: when the run of class
    characters is followed by a character outside the class (or by the
    end) and the rest of the pattern accepts right after the whole run,
    that is the match found. *)
Lemma rep_go_greedy {R} p (k : str → str → option R) res aft' w :
  Forall (λ a, p a = true) w →
  stops p aft' →
  ∀ lo bef,
    lo ≤ length w →
    k (rev w ++ bef) aft' = Some res →
    rep_go p lo None bef (w ++ aft') k = Some res.
Proof.
  intros Hall Hstop. induction Hall as [|a w Hp Hall IH]; intros lo bef Hlo Hk.
  - simpl in *. assert (lo = 0) as -> by lia.
    destruct aft' as [|b aft']; cbn [rep_go]; [done|].
    simpl in Hstop. by rewrite Hstop.
  - cbn [app rep_go]. rewrite Hp. cbn [can_more andb].
    change (pred <$> None) with (@None nat).
    rewrite (IH (pred lo) (a :: bef)); [done|simpl in Hlo; lia|].
    simpl in Hk. by rewrite <- app_assoc in Hk.
Qed.

(** A search passes over a prefix at whose positions no attempt succeeds. *)
Lemma search_from_skip r pre rest :
  ∀ bef,
    (∀ p1 p2, pre = p1 ++ p2 → p2 ≠ [] →
              attempt false r (Cursor (rev p1 ++ bef) (p2 ++ rest)) = None) →
    search_from r bef (pre ++ rest) = search_from r (rev pre ++ bef) rest.
Proof.
  induction pre as [|x pre IH]; intros bef Hfail; [done|].
  pose proof (Hfail [] (x :: pre) eq_refl ltac:(done)) as H0.
  cbn [app rev] in H0. cbn [app search_from]. rewrite H0, IH.
  - simpl. by rewrite <- app_assoc.
  - intros p1 p2 -> Hp2. specialize (Hfail (x :: p1) p2 eq_refl Hp2).
    simpl in Hfail. by rewrite <- app_assoc in Hfail.
Qed.

(** ** The email search *)

Definition starts_with (p : ascii → bool) (s : str) : Prop :=
  match s with c :: _ => p c = true | [] => False end.

(** An address is well formed when the email pattern accepts it in full:
    it has the shape local@domain.tail over the pattern's three classes
    and the two [\b] anchors hold at its ends, that is, it begins and ends
    with a word character. *)
Definition well_formed_email (a : str) : Prop :=
  lang pat_email a ∧ starts_with is_word a ∧ starts_with is_word (rev a).

(** Text that is empty or begins with white space. *)
Definition blank_start (s : str) : Prop :=
  match s with c :: _ => is_space c = true | [] => True end.

Lemma email_shape a :
  lang pat_email a →
  ∃ l d t, a = l ++ "@"%char :: d ++ "."%char :: t ∧
           Forall (λ c, email_local c = true) l ∧ 1 ≤ length l ∧
           Forall (λ c, email_domain c = true) d ∧ 1 ≤ length d ∧
           Forall (λ c, email_tail c = true) t ∧ 1 ≤ length t.
Proof.
  unfold pat_email; cbn [lang]. intros (w0 & w & -> & -> & l & w1 & -> & (Hl & Hl1 & _) & x & w2 & ->
                 & (a1 & -> & Ha1) & d & w3 & -> & (Hd & Hd1 & _) & y & w4 & ->
                 & (a2 & -> & Ha2) & t & w5 & -> & (Ht & Ht1 & _) & ->).
  apply is_chr_eq in Ha1 as ->. apply is_chr_eq in Ha2 as ->.
  exists l, d, t. rewrite app_nil_r. simpl. done.
Qed.

Lemma local_run_no_at p s rest l rest' :
  Forall (λ c, c ≠ "@"%char) p →
  is_space s = true →
  Forall (λ c, email_local c = true) l →
  p ++ s :: rest = l ++ "@"%char :: rest' →
  False.
Proof.
  intros Hp Hs. revert l. induction Hp as [|x p Hx Hp IH]; intros l Hl Heq.
  - destruct Hl as [|a l Ha Hl]; simpl in Heq; injection Heq as -> _.
    + by vm_compute in Hs.
    + apply space_not_local in Hs. congruence.
  - destruct Hl as [|a l Ha Hl]; simpl in Heq; injection Heq as -> Heq.
    + done.
    + by eapply IH.
Qed.

Lemma email_attempt_fails bef p s rest :
  Forall (λ c, c ≠ "@"%char) p →
  is_space s = true →
  attempt false pat_email (Cursor bef (p ++ s :: rest)) = None.
Proof.
  intros Hp Hs. destruct (attempt _ _ _) as [m|] eqn:Hm; [|done]. exfalso.
  unfold attempt in Hm. apply exec_sound in Hm as (w & c' & g' & [Ha _] & Hw & _).
  apply email_shape in Hw as (l & d & t & -> & Hl & _).
  simpl in Ha. rewrite <- app_assoc in Ha. simpl in Ha.
  by eapply local_run_no_at.
Qed.

Lemma blank_not_word s : blank_start s → word_before (Cursor s []) = false.
Proof.
  destruct s as [|c s]; [done|]. simpl. unfold word_before. simpl.
  apply space_not_word.
Qed.

Lemma email_attempt_succeeds bef l d t post :
  blank_start bef → blank_start post →
  starts_with is_word (l ++ "@"%char :: d ++ "."%char :: t) →
  starts_with is_word (rev (l ++ "@"%char :: d ++ "."%char :: t)) →
  Forall (λ c, email_local c = true) l → 1 ≤ length l →
  Forall (λ c, email_domain c = true) d → 1 ≤ length d →
  Forall (λ c, email_tail c = true) t → 1 ≤ length t →
  let c := Cursor bef ((l ++ "@"%char :: d ++ "."%char :: t) ++ post) in
  let c' := Cursor (rev (l ++ "@"%char :: d ++ "."%char :: t) ++ bef) post in
  attempt false pat_email c = Some (Match (whole c) (pos c) (pos c') [] 0).
Proof.
  intros Hbef Hpost Hfirst Hlast Hl Hl1 Hd Hd1 Ht Ht1 c c'.
  unfold attempt, pat_email. cbn [exec].
  assert (at_boundary c = true) as ->.
  { unfold at_boundary.
    replace (word_before c) with false
      by (symmetry; by apply (blank_not_word bef)).
    unfold word_after, c. cbn [after].
    destruct l as [|x l]; [simpl in Hl1; lia|]. simpl in *. by rewrite Hfirst. }
  unfold c at 1 2. cbn [before after].
  rewrite <- app_assoc. cbn [app]. rewrite <- app_assoc. cbn [app].
  apply rep_go_greedy; [done|by vm_compute|done|].
  cbn [exec before after]. change (is_chr "@" "@") with true. cbv iota.
  apply rep_go_greedy; [done|by vm_compute|done|].
  cbn [exec before after]. change (is_chr "." ".") with true. cbv iota.
  apply rep_go_greedy; [done| |done|].
  { destruct post as [|y post]; [done|]. simpl in *. by apply space_not_tail. }
  cbn [exec].
  assert (Hb : rev t ++ "."%char :: rev d ++ "@"%char :: rev l ++ bef
               = rev (l ++ "@"%char :: d ++ "."%char :: t) ++ bef).
  { rewrite rev_app_distr. simpl. rewrite rev_app_distr. simpl.
    by rewrite <- !app_assoc. }
  rewrite Hb. fold c'.
  assert (at_boundary c' = true) as ->.
  { unfold at_boundary, word_before, word_after, c'. cbn [before after].
    destruct (rev (l ++ "@"%char :: d ++ "."%char :: t)) as [|z q]; [done|].
    simpl in Hlast. cbn [app]. rewrite Hlast.
    destruct post as [|y post]; [done|]. simpl in Hpost.
    by rewrite (space_not_word y). }
  cbn [andb]. done.
Qed.

Lemma search_from_hit r bef aft m :
  attempt false r (Cursor bef aft) = Some m → search_from r bef aft = Some m.
Proof. intros H. destruct aft; cbn [search_from]; by rewrite H. Qed.

Lemma email_found pre a post :
  well_formed_email a →
  Forall (λ c, c ≠ "@"%char) pre →
  blank_start (rev pre) →
  blank_start post →
  ∃ m, re_search pat_email (pre ++ a ++ post) = Some m ∧ group0 m = a.
Proof.
  intros (Hlang & Hfirst & Hlast) Hpre Hends Hpost.
  unfold re_search. rewrite search_from_skip.
  2:{ intros p1 p2 -> Hp2.
      destruct (rev p2) as [|s q] eqn:Hq.
      { apply (f_equal (@rev _)) in Hq. rewrite rev_involutive in Hq. done. }
      apply (f_equal (@rev _)) in Hq. rewrite rev_involutive in Hq.
      simpl in Hq. subst p2.
      rewrite rev_app_distr, rev_app_distr, rev_involutive in Hends.
      simpl in Hends. rewrite <- app_assoc. simpl.
      apply email_attempt_fails; [|done].
      apply Forall_app in Hpre as [_ Hpre]. by apply Forall_app in Hpre as [Hpre _]. }
  rewrite app_nil_r.
  apply email_shape in Hlang as (l & d & t & -> & Hl & Hl1 & Hd & Hd1 & Ht & Ht1).
  eexists. split.
  - apply search_from_hit. by apply email_attempt_succeeds.
  - unfold group0. cbn [m_string m_start m_end].
    by apply moved_substr.
Qed.

(** ** The result dictionary as a record *)

(** The dictionaries that the program builds have at most nine keys: five
    from the start, the two name parts (always set together) and the two
    links.  [to_dict] is the dictionary of a record of these. *)
Record fields := Fields {
  f_name : str;
  f_email : str;
  f_phone : str;
  f_location : str;
  f_skills : list str;
  f_first_last : option (str * str);
  f_linkedin : option str;
  f_github : option str
}.

Definition field (r : fields) (k : string) : option value :=
  if decide (k = "name") then Some (VStr (f_name r))
  else if decide (k = "email") then Some (VStr (f_email r))
  else if decide (k = "phone") then Some (VStr (f_phone r))
  else if decide (k = "location") then Some (VStr (f_location r))
  else if decide (k = "skills") then Some (VList (f_skills r))
  else if decide (k = "First Name") then (λ p, VStr p.1) <$> f_first_last r
  else if decide (k = "Last Name") then (λ p, VStr p.2) <$> f_first_last r
  else if decide (k = "linkedin") then VStr <$> f_linkedin r
  else if decide (k = "github") then VStr <$> f_github r
  else None.

Definition opt_insert (k : string) (o : option value)
    (d : gmap string value) : gmap string value :=
  match o with
  | Some v => <[k := v]> d
  | None => d
  end.

Definition to_dict (r : fields) : gmap string value :=
  opt_insert "github" (field r "github")
    (opt_insert "linkedin" (field r "linkedin")
       (opt_insert "Last Name" (field r "Last Name")
          (opt_insert "First Name" (field r "First Name")
             (<["skills" := VList (f_skills r)]>
                (<["location" := VStr (f_location r)]>
                   (<["phone" := VStr (f_phone r)]>
                      (<["email" := VStr (f_email r)]>
                         (<["name" := VStr (f_name r)]> ∅)))))))).

Lemma lookup_opt_insert k o (d : gmap string value) j :
  opt_insert k o d !! j = if decide (k = j) then
                            match o with Some v => Some v | None => d !! j end
                          else d !! j.
Proof.
  destruct o; simpl; [by rewrite lookup_insert|]. by case_decide.
Qed.

Lemma lookup_to_dict r k : to_dict r !! k = field r k.
Proof.
  unfold field at 1.
  repeat (case_decide;
          [subst k; destruct r as [? ? ? ? ? [[]|] [|] [|]]; reflexivity|]).
  unfold to_dict. rewrite !lookup_opt_insert.
  rewrite !decide_False by congruence.
  by rewrite !lookup_insert_ne by congruence.
Qed.

(** Each assignment of the program, on records. *)
Definition set_name (s : str) (r : fields) : fields :=
  Fields s (f_email r) (f_phone r) (f_location r) (f_skills r)
    (f_first_last r) (f_linkedin r) (f_github r).
Definition set_email (s : str) (r : fields) : fields :=
  Fields (f_name r) s (f_phone r) (f_location r) (f_skills r)
    (f_first_last r) (f_linkedin r) (f_github r).
Definition set_phone (s : str) (r : fields) : fields :=
  Fields (f_name r) (f_email r) s (f_location r) (f_skills r)
    (f_first_last r) (f_linkedin r) (f_github r).
Definition set_location (s : str) (r : fields) : fields :=
  Fields (f_name r) (f_email r) (f_phone r) s (f_skills r)
    (f_first_last r) (f_linkedin r) (f_github r).
Definition set_skills (l : list str) (r : fields) : fields :=
  Fields (f_name r) (f_email r) (f_phone r) (f_location r) l
    (f_first_last r) (f_linkedin r) (f_github r).
Definition set_first_last (p : str * str) (r : fields) : fields :=
  Fields (f_name r) (f_email r) (f_phone r) (f_location r) (f_skills r)
    (Some p) (f_linkedin r) (f_github r).
Definition set_linkedin (s : str) (r : fields) : fields :=
  Fields (f_name r) (f_email r) (f_phone r) (f_location r) (f_skills r)
    (f_first_last r) (Some s) (f_github r).
Definition set_github (s : str) (r : fields) : fields :=
  Fields (f_name r) (f_email r) (f_phone r) (f_location r) (f_skills r)
    (f_first_last r) (f_linkedin r) (Some s).

Ltac dict_ext :=
  apply map_eq; intros k;
  rewrite ?lookup_insert, !lookup_to_dict; unfold field;
  repeat case_decide; subst; simpl; congruence.

Lemma insert_name s r : <["name" := VStr s]> (to_dict r) = to_dict (set_name s r).
Proof. dict_ext. Qed.
Lemma insert_email s r : <["email" := VStr s]> (to_dict r) = to_dict (set_email s r).
Proof. dict_ext. Qed.
Lemma insert_phone s r : <["phone" := VStr s]> (to_dict r) = to_dict (set_phone s r).
Proof. dict_ext. Qed.
Lemma insert_location s r :
  <["location" := VStr s]> (to_dict r) = to_dict (set_location s r).
Proof. dict_ext. Qed.
Lemma insert_skills l r :
  <["skills" := VList l]> (to_dict r) = to_dict (set_skills l r).
Proof. dict_ext. Qed.
Lemma insert_first_last a b r :
  <["Last Name" := VStr b]> (<["First Name" := VStr a]> (to_dict r))
  = to_dict (set_first_last (a, b) r).
Proof. dict_ext. Qed.
Lemma insert_linkedin s r :
  <["linkedin" := VStr s]> (to_dict r) = to_dict (set_linkedin s r).
Proof. dict_ext. Qed.
Lemma insert_github s r :
  <["github" := VStr s]> (to_dict r) = to_dict (set_github s r).
Proof. dict_ext. Qed.

(** The dictionary the program starts from. *)
Definition fields0 : fields := Fields [] [] [] [] [] None None None.

Lemma initial_dict :
  ({[ "name" := VStr []; "email" := VStr []; "phone" := VStr [];
      "location" := VStr []; "skills" := VList [] ]} : gmap string value)
  = to_dict fields0.
Proof.
  apply map_eq; intros k. rewrite lookup_to_dict. unfold field.
  repeat (case_decide; [subst k; reflexivity|]).
  rewrite !lookup_insert_ne by congruence.
  by rewrite lookup_singleton_ne by congruence.
Qed.

(** ** Matches of the two name patterns *)

Lemma search_from_attempt r aft :
  ∀ bef m, search_from r bef aft = Some m →
           ∃ c, attempt false r c = Some m ∧ whole c = rev bef ++ aft.
Proof.
  induction aft as [|a aft IH]; intros bef m H; cbn [search_from] in H.
  - destruct (attempt false r (Cursor bef [])) eqn:Ha; [|done].
    injection H as ->. eauto.
  - destruct (attempt false r (Cursor bef (a :: aft))) eqn:Ha.
    + injection H as ->. eauto.
    + apply IH in H as (c & Hc & Hw). exists c. split; [done|].
      rewrite Hw. simpl. by rewrite <- app_assoc.
Qed.

(** What a successful attempt returns. *)
Lemma attempt_inv must r c m :
  attempt must r c = Some m →
  ∃ w c', moved c w c' ∧ lang r w ∧ group0 m = w ∧
          m_string m = whole c ∧ m_start m = pos c ∧ m_end m = pos c' ∧
          m_ngroups m = ngroups r.
Proof.
  unfold attempt. intros H.
  apply exec_sound in H as (w & c' & g' & Hm & Hl & Hk).
  destruct (must && (pos c' =? pos c)); [done|]. injection Hk as <-.
  exists w, c'. split_and!; try done. by apply moved_substr.
Qed.

(** A word of letters, white space, a word of letters: begins and ends
    with a letter, so [strip] leaves it as it is. *)
Lemma lstrip_letter s : starts_with (ci is_az) s → lstrip s = s.
Proof.
  destruct s as [|c s]; [done|]. simpl. intros H.
  by rewrite (letter_not_space c).
Qed.

Lemma strip_between_letters s :
  starts_with (ci is_az) s → starts_with (ci is_az) (rev s) →
  strip s = s ∧ s ≠ [].
Proof.
  intros H1 H2. unfold strip.
  rewrite (lstrip_letter s), (lstrip_letter (rev s)), rev_involutive by done.
  split; [done|]. by destruct s.
Qed.

Lemma word_ends p w (P : ascii → bool) :
  Forall (λ a, P a = true) w → 1 ≤ length w →
  starts_with P (rev w ++ p).
Proof.
  intros Hall Hlen. apply Forall_rev in Hall.
  destruct (rev w) as [|c q] eqn:Hq.
  - apply (f_equal length) in Hq. rewrite length_rev in Hq. simpl in Hq. lia.
  - simpl. by inversion Hall.
Qed.

Lemma name_pair_strip g : lang name_pair g → strip g = g ∧ g ≠ [].
Proof.
  unfold name_pair; cbn [lang].
  intros (w1 & r1 & -> & (a & -> & Ha) & w2 & r2 & -> & (Hw2 & ? & _)
          & w3 & r3 & -> & (s & -> & Hs) & w4 & w5 & -> & (b & -> & Hb)
          & (Hw5 & ? & _)).
  apply strip_between_letters.
  - simpl. by rewrite <- capital_is_letter.
  - rewrite !rev_app_distr, <- !app_assoc. by apply word_ends.
Qed.

Lemma name_line_strip w : lang pat_name_line w → strip w = w ∧ w ≠ [].
Proof.
  unfold pat_name_line; cbn [lang].
  intros (w0 & r0 & -> & -> & w1 & r1 & -> & (wa & w2 & -> & (a & -> & Ha) & _)
          & w3 & r3 & -> & _ & w4 & w5 & -> & _ & (Hw5 & ? & _)).
  apply strip_between_letters.
  - simpl. by rewrite <- capital_is_letter.
  - rewrite !rev_app_distr, <- !app_assoc. by apply word_ends.
Qed.

(** The text of group 1 of a match. *)
Definition cap1 (m : match_obj) : str :=
  match m_caps m with
  | (_, (s, e)) :: _ => substr (m_string m) s e
  | [] => []
  end.

Lemma name_label_group s m :
  re_search pat_name_label s = Some m →
  group m 1 = Ok (Some (cap1 m)) ∧ lang name_pair (cap1 m).
Proof.
  intros H. apply search_from_attempt in H as (c & H & _).
  unfold attempt, pat_name_label in H. cbn [exec] in H.
  destruct (before c); [|done].
  apply exec_sound in H as (w1 & c1 & g1 & Hm1 & _ & H).
  apply rep_go_sound in H as (w2 & aft2 & Ha2 & _ & _ & _ & H).
  apply exec_sound in H as (w3 & c3 & g3 & Hm & Hl & H).
  injection H as <-.
  unfold group, cap1. cbn [m_ngroups m_caps m_string ngroups].
  split; [reflexivity|].
  assert (Hm2 : moved c1 w2 (Cursor (rev w2 ++ before c1) aft2)) by done.
  rewrite <- (moved_whole _ _ _ Hm1), <- (moved_whole _ _ _ Hm2).
  by rewrite (moved_substr _ _ _ Hm).
Qed.

(** ** The statements of the program on records *)

Definition nonempty (s : str) : bool :=
  match s with [] => false | _ => true end.

Lemma getitem_name r : getitem (to_dict r) "name" = Ok (VStr (f_name r)).
Proof. unfold getitem. by rewrite lookup_to_dict. Qed.
Lemma getitem_location r :
  getitem (to_dict r) "location" = Ok (VStr (f_location r)).
Proof. unfold getitem. by rewrite lookup_to_dict. Qed.
Lemma getitem_skills r :
  getitem (to_dict r) "skills" = Ok (VList (f_skills r)).
Proof. unfold getitem. by rewrite lookup_to_dict. Qed.
Lemma getitem_phone r : getitem (to_dict r) "phone" = Ok (VStr (f_phone r)).
Proof. unfold getitem. by rewrite lookup_to_dict. Qed.

Lemma truthy_str s : truthy (VStr s) = nonempty s.
Proof. by destruct s. Qed.

(** One entity (lines 60-65). *)
Definition step_fields (r : fields) (e : ent) : fields :=
  if label_is e "PERSON" && negb (nonempty (f_name r))
  then set_name (strip (ent_text e)) r
  else if (label_is e "GPE" || label_is e "LOC")
          && negb (nonempty (f_location r))
  then set_location (strip (ent_text e)) r
  else if label_is e "SKILL"
  then set_skills (f_skills r ++ [strip (ent_text e)]) r
  else r.

Lemma ent_step_fields r e :
  ent_step (to_dict r) e = Ok (to_dict (step_fields r e)).
Proof.
  unfold ent_step, step_fields.
  rewrite getitem_name, getitem_location, getitem_skills.
  destruct (label_is e "PERSON"), (label_is e "GPE"), (label_is e "LOC"),
    (label_is e "SKILL"), (f_name r) eqn:?, (f_location r) eqn:?; simpl;
    rewrite ?insert_name, ?insert_location, ?insert_skills; reflexivity.
Qed.

Lemma ent_loop_fields ents :
  ∀ r, ent_loop ents (to_dict r) = Ok (to_dict (foldl step_fields r ents)).
Proof.
  induction ents as [|e ents IH]; intros r; [done|].
  cbn [ent_loop foldl]. rewrite ent_step_fields. simpl. apply IH.
Qed.

Section PipelineFacts.

Variable nlp : str → list ent.
Variable HumanName : str → human_name.

(** The name parts (lines 69-71). *)
Definition with_parts (r : fields) : fields :=
  let parsed_name := HumanName (f_name r) in
  set_first_last (strip (hn_first parsed_name), strip (hn_last parsed_name)) r.

Lemma parse_name_fields r :
  parse_name HumanName (to_dict r) = Ok (to_dict (with_parts r)).
Proof.
  unfold parse_name. rewrite getitem_name. simpl.
  by rewrite insert_first_last.
Qed.

(** The first result of [f] along a list: a loop that stops at its first
    hit. *)
Fixpoint first_some {A B} (f : A → option B) (l : list A) : option B :=
  match l with
  | [] => None
  | x :: l' =>
      match f x with
      | Some y => Some y
      | None => first_some f l'
      end
  end.

(** The name that the first fallback reads off a line. *)
Definition name_of_line (line : str) : option str :=
  (λ m, strip (group0 m)) <$> re_match pat_name_line (strip line).

Definition with_name (o : option str) (r : fields) : fields :=
  match o with
  | Some n => with_parts (set_name n r)
  | None => r
  end.

Lemma name_line_loop_fields lines r :
  name_line_loop HumanName lines (to_dict r)
  = Ok (to_dict (with_name (first_some name_of_line lines) r)).
Proof.
  induction lines as [|l lines IH]; [done|].
  cbn [name_line_loop first_some]. unfold name_of_line at 1.
  destruct (re_match pat_name_line (strip l)) as [m|] eqn:Hm; simpl.
  - by rewrite insert_name, parse_name_fields.
  - apply IH.
Qed.


(** The name that the second fallback reads off a line. *)
Definition name_of_label (line : str) : option str :=
  (λ m, strip (cap1 m)) <$> re_search pat_name_label (strip line).

Lemma name_label_loop_fields lines r :
  name_label_loop HumanName lines (to_dict r)
  = Ok (to_dict (with_name (first_some name_of_label lines) r)).
Proof.
  induction lines as [|l lines IH]; [done|].
  cbn [name_label_loop first_some]. unfold name_of_label at 1.
  destruct (re_search pat_name_label (strip l)) as [m|] eqn:Hm; simpl.
  - apply name_label_group in Hm as [-> _]. simpl.
    by rewrite insert_name, parse_name_fields.
  - apply IH.
Qed.

(** The whole match of a search. *)
Definition found (r : regex) (text : str) : option str :=
  group0 <$> re_search r text.

Lemma set_if_found_fields key set r pat text :
  (∀ s r, <[key := VStr s]> (to_dict r) = to_dict (set s r)) →
  set_if_found key pat text (to_dict r)
  = to_dict (match found pat text with Some s => set s r | None => r end).
Proof.
  intros Hset. unfold set_if_found, found.
  destruct (re_search pat text); simpl; [apply Hset|done].
Qed.

(** The first valid candidate of the phone loop. *)
Definition valid_phone (num : str) : option str :=
  if is_valid_phone num then Some num else None.

Lemma phone_loop_fields candidates r :
  phone_loop candidates (to_dict r)
  = to_dict (match first_some valid_phone candidates with
             | Some num => set_phone num r
             | None => r
             end).
Proof.
  induction candidates as [|num candidates IH]; [done|].
  cbn [phone_loop first_some]. unfold valid_phone at 1.
  destruct (is_valid_phone num); [apply insert_phone|apply IH].
Qed.

(** The stages of [extract_info_with_spacy_regex] on records. *)
Definition resolve_names (lines : list str) (r : fields) : fields :=
  let r := if nonempty (f_name r) then with_parts r else r in
  let r := if nonempty (f_name r) then r
           else with_name (first_some name_of_line (take 10 lines)) r in
  if nonempty (f_name r) then r
  else with_name (first_some name_of_label lines) r.

Definition phone_candidates (ents : list ent) : list str :=
  (λ e, strip (ent_text e)) <$> filter (λ e, label_is e "PHONE" = true) ents.

Definition resolve_phone (ents : list ent) (text : str) (r : fields)
    : fields :=
  let r := match first_some valid_phone (phone_candidates ents) with
           | Some num => set_phone num r
           | None => r
           end in
  if nonempty (f_phone r) then r
  else match found pat_phone text with
       | Some g => if is_valid_phone g then set_phone g r else r
       | None => r
       end.

Definition resolve_found (text : str) (r : fields) : fields :=
  let r := match found pat_linkedin text with
           | Some s => set_linkedin s r
           | None => r
           end in
  match found pat_github text with
  | Some s => set_github s r
  | None => r
  end.

Definition final_fields (text : str) : fields :=
  let ents := nlp text in
  let r := foldl step_fields fields0 ents in
  let r := resolve_names (splitlines text) r in
  let r := match found pat_email text with
           | Some s => set_email s r
           | None => r
           end in
  let r := resolve_phone ents text r in
  resolve_found text r.

(** The program returns, and returns the dictionary of [final_fields]. *)
Lemma extract_info_fields text :
  extract_info_with_spacy_regex nlp HumanName text
  = Ok (to_dict (final_fields text)).
Proof.
  unfold extract_info_with_spacy_regex, final_fields.
  rewrite initial_dict, ent_loop_fields. cbn [mbind result_bind].
  set (r1 := foldl step_fields fields0 (nlp text)).
  unfold resolve_names.
  rewrite getitem_name. cbn [mbind result_bind]. rewrite truthy_str.
  assert (H1 : (if nonempty (f_name r1) then parse_name HumanName (to_dict r1)
                else mret (to_dict r1))
               = Ok (to_dict (if nonempty (f_name r1) then with_parts r1 else r1))).
  { destruct (nonempty (f_name r1)); [apply parse_name_fields|done]. }
  rewrite H1. clear H1. cbn [mbind result_bind].
  set (r2 := if nonempty (f_name r1) then with_parts r1 else r1).
  rewrite getitem_name. cbn [mbind result_bind]. rewrite truthy_str.
  assert (H2 : (if negb (nonempty (f_name r2))
                then name_line_loop HumanName (take 10 (splitlines text)) (to_dict r2)
                else mret (to_dict r2))
               = Ok (to_dict (if nonempty (f_name r2) then r2
                              else with_name (first_some name_of_line
                                                (take 10 (splitlines text))) r2))).
  { destruct (nonempty (f_name r2)); [done|apply name_line_loop_fields]. }
  rewrite H2. clear H2. cbn [mbind result_bind].
  set (r3 := if nonempty (f_name r2) then r2 else _).
  rewrite getitem_name. cbn [mbind result_bind]. rewrite truthy_str.
  assert (H3 : (if negb (nonempty (f_name r3))
                then name_label_loop HumanName (splitlines text) (to_dict r3)
                else mret (to_dict r3))
               = Ok (to_dict (if nonempty (f_name r3) then r3
                              else with_name (first_some name_of_label
                                                (splitlines text)) r3))).
  { destruct (nonempty (f_name r3)); [done|apply name_label_loop_fields]. }
  rewrite H3. clear H3. cbn [mbind result_bind].
  set (r4 := if nonempty (f_name r3) then r3 else _).
  rewrite (set_if_found_fields "email" set_email) by apply insert_email.
  set (r5 := match found pat_email text with Some s => _ | None => _ end).
  fold (phone_candidates (nlp text)). rewrite phone_loop_fields.
  unfold resolve_phone.
  set (r6 := match first_some valid_phone _ with Some s => _ | None => _ end).
  rewrite getitem_phone. cbn [mbind result_bind]. rewrite truthy_str.
  unfold resolve_found.
  assert (H7 : (if negb (nonempty (f_phone r6))
                then match re_search pat_phone text with
                     | Some fallback_match =>
                         if is_valid_phone (group0 fallback_match)
                         then <["phone" := VStr (group0 fallback_match)]> (to_dict r6)
                         else to_dict r6
                     | None => to_dict r6
                     end
                else to_dict r6)
               = to_dict (if nonempty (f_phone r6) then r6
                          else match found pat_phone text with
                               | Some g => if is_valid_phone g then set_phone g r6 else r6
                               | None => r6
                               end)).
  { unfold found. destruct (nonempty (f_phone r6)); [done|]. simpl.
    destruct (re_search pat_phone text); [|done]. simpl.
    destruct (is_valid_phone _); [apply insert_phone|done]. }
  rewrite H7. clear H7.
  rewrite (set_if_found_fields "linkedin" set_linkedin) by apply insert_linkedin.
  by rewrite (set_if_found_fields "github" set_github) by apply insert_github.
Qed.

End PipelineFacts.

(** ** The fields of the result *)

Lemma lookup_name r : to_dict r !! "name" = Some (VStr (f_name r)).
Proof. by rewrite lookup_to_dict. Qed.
Lemma lookup_email r : to_dict r !! "email" = Some (VStr (f_email r)).
Proof. by rewrite lookup_to_dict. Qed.
Lemma lookup_phone r : to_dict r !! "phone" = Some (VStr (f_phone r)).
Proof. by rewrite lookup_to_dict. Qed.
Lemma lookup_location r :
  to_dict r !! "location" = Some (VStr (f_location r)).
Proof. by rewrite lookup_to_dict. Qed.
Lemma lookup_skills r : to_dict r !! "skills" = Some (VList (f_skills r)).
Proof. by rewrite lookup_to_dict. Qed.
Lemma lookup_first_name r :
  to_dict r !! "First Name" = (λ p, VStr p.1) <$> f_first_last r.
Proof. by rewrite lookup_to_dict. Qed.
Lemma lookup_last_name r :
  to_dict r !! "Last Name" = (λ p, VStr p.2) <$> f_first_last r.
Proof. by rewrite lookup_to_dict. Qed.
Lemma lookup_linkedin r : to_dict r !! "linkedin" = VStr <$> f_linkedin r.
Proof. by rewrite lookup_to_dict. Qed.
Lemma lookup_github r : to_dict r !! "github" = VStr <$> f_github r.
Proof. by rewrite lookup_to_dict. Qed.

Lemma label_is_eq e l : label_is e l = true ↔ label_ e = l.
Proof. apply String.eqb_eq. Qed.

Lemma skills_after_ents ents :
  ∀ r, f_skills (foldl step_fields r ents)
       = f_skills r ++ ((λ e, strip (ent_text e)) <$>
                          filter (λ e, label_ e = "SKILL") ents).
Proof.
  induction ents as [|e ents IH]; intros r; simpl.
  - by rewrite app_nil_r.
  - rewrite IH, filter_cons. unfold step_fields.
    destruct (label_is e "PERSON") eqn:Hp.
    { apply label_is_eq in Hp. rewrite decide_False by (rewrite Hp; done).
      unfold label_is. rewrite Hp. simpl.
      by destruct (nonempty (f_name r)), (nonempty (f_location r)). }
    destruct (label_is e "GPE") eqn:Hg.
    { apply label_is_eq in Hg. rewrite decide_False by (rewrite Hg; done).
      unfold label_is. rewrite Hg. simpl.
      by destruct (nonempty (f_location r)). }
    destruct (label_is e "LOC") eqn:Hl.
    { apply label_is_eq in Hl. rewrite decide_False by (rewrite Hl; done).
      unfold label_is. rewrite Hl. simpl.
      by destruct (nonempty (f_location r)). }
    simpl. destruct (label_is e "SKILL") eqn:Hs.
    + apply label_is_eq in Hs. rewrite decide_True by done. simpl.
      by rewrite <- app_assoc.
    + rewrite decide_False; [done|]. intros Hs'. apply label_is_eq in Hs'.
      congruence.
Qed.

Lemma first_last_after_ents ents :
  ∀ r, f_first_last (foldl step_fields r ents) = f_first_last r.
Proof.
  induction ents as [|e ents IH]; intros r; simpl; [done|].
  rewrite IH. unfold step_fields. by repeat case_match.
Qed.

Section FieldFacts.

Variable nlp : str → list ent.
Variable HumanName : str → human_name.

Lemma with_name_skills o r : f_skills (with_name HumanName o r) = f_skills r.
Proof. by destruct o. Qed.

Lemma resolve_names_skills lines r :
  f_skills (resolve_names HumanName lines r) = f_skills r.
Proof.
  unfold resolve_names. repeat case_match; by rewrite ?with_name_skills.
Qed.

Lemma final_skills text :
  f_skills (final_fields nlp HumanName text)
  = (λ e, strip (ent_text e)) <$> filter (λ e, label_ e = "SKILL") (nlp text).
Proof.
  unfold final_fields, resolve_found, resolve_phone.
  repeat case_match; simpl;
    by rewrite resolve_names_skills, skills_after_ents.
Qed.

Lemma final_name text :
  f_name (final_fields nlp HumanName text)
  = f_name (resolve_names HumanName (splitlines text)
              (foldl step_fields fields0 (nlp text))).
Proof.
  unfold final_fields, resolve_found, resolve_phone. by repeat case_match.
Qed.

Lemma final_first_last text :
  f_first_last (final_fields nlp HumanName text)
  = f_first_last (resolve_names HumanName (splitlines text)
                    (foldl step_fields fields0 (nlp text))).
Proof.
  unfold final_fields, resolve_found, resolve_phone. by repeat case_match.
Qed.

End FieldFacts.

(** C7. For every sequence of entity spans, the skills field of the
    result is exactly the trimmed texts of the spans labelled SKILL, in
    the order met and with duplicates kept; the spans SKILL "Python",
    SKILL "Go", SKILL "Python" give ["Python"; "Go"; "Python"]. *)
Theorem skills_in_encounter_order :
  (∀ nlp HumanName text,
     ∃ d, extract_info_with_spacy_regex nlp HumanName text = Ok d ∧
          d !! "skills"
          = Some (VList ((λ e, strip (ent_text e)) <$>
                           filter (λ e, label_ e = "SKILL") (nlp text))))
  ∧ (∀ HumanName text,
       ∃ d, extract_info_with_spacy_regex
              (λ _, [Ent (txt "Python") "SKILL"; Ent (txt "Go") "SKILL";
                     Ent (txt "Python") "SKILL"]) HumanName text = Ok d ∧
            d !! "skills" = Some (VList [txt "Python"; txt "Go"; txt "Python"])).
Proof.
  split.
  - intros nlp HumanName text. eexists. split; [apply extract_info_fields|].
    by rewrite lookup_skills, final_skills.
  - intros HumanName text. eexists. split; [apply extract_info_fields|].
    by rewrite lookup_skills, final_skills.
Qed.

(** ** Name resolution *)

Lemma step_name r e :
  f_name (step_fields r e)
  = if label_is e "PERSON" && negb (nonempty (f_name r))
    then strip (ent_text e) else f_name r.
Proof. unfold step_fields. by repeat case_match. Qed.

Lemma name_kept ents :
  ∀ r, nonempty (f_name r) = true →
       f_name (foldl step_fields r ents) = f_name r.
Proof.
  induction ents as [|e ents IH]; intros r Hr; simpl; [done|].
  assert (He : f_name (step_fields r e) = f_name r).
  { rewrite step_name, Hr. by rewrite andb_false_r. }
  rewrite IH; [done|]. by rewrite He.
Qed.

Lemma name_not_set ents :
  ∀ r, f_name r = [] →
       (∀ e, e ∈ ents → label_ e = "PERSON" → strip (ent_text e) = []) →
       f_name (foldl step_fields r ents) = [].
Proof.
  induction ents as [|e ents IH]; intros r Hr Hents; simpl; [done|].
  apply IH.
  - rewrite step_name, Hr. simpl. rewrite andb_true_r.
    destruct (label_is e "PERSON") eqn:Hp; [|done].
    apply Hents; [left|]. by apply label_is_eq.
  - intros e' He'. apply Hents. by right.
Qed.

Lemma name_from_first_person pre e post r :
  f_name r = [] →
  label_ e = "PERSON" →
  strip (ent_text e) ≠ [] →
  (∀ e', e' ∈ pre → label_ e' = "PERSON" → strip (ent_text e') = []) →
  f_name (foldl step_fields r (pre ++ e :: post)) = strip (ent_text e).
Proof.
  intros Hr Hp Hne Hpre. rewrite foldl_app. cbn [foldl].
  pose proof (name_not_set pre r Hr Hpre) as H0.
  assert (He : f_name (step_fields (foldl step_fields r pre) e)
               = strip (ent_text e)).
  { rewrite step_name, H0. apply label_is_eq in Hp. by rewrite Hp. }
  rewrite name_kept; [done|]. rewrite He. by destruct (strip (ent_text e)).
Qed.

Lemma first_some_elem {A B} (f : A → option B) l y :
  first_some f l = Some y → ∃ x, x ∈ l ∧ f x = Some y.
Proof.
  induction l as [|x l IH]; [done|]. simpl.
  destruct (f x) eqn:Hx.
  - intros [= ->]. exists x. split; [left|done].
  - intros H. apply IH in H as (x' & ? & ?). exists x'. split; [by right|done].
Qed.

Lemma first_some_none {A B} (f : A → option B) l :
  (∀ x, x ∈ l → f x = None) → first_some f l = None.
Proof.
  induction l as [|x l IH]; [done|]. intros H. simpl.
  rewrite (H x) by left. apply IH. intros x' ?. apply H. by right.
Qed.

Lemma first_some_app {A B} (f : A → option B) l1 l2 :
  (∀ x, x ∈ l1 → f x = None) →
  first_some f (l1 ++ l2) = first_some f l2.
Proof.
  induction l1 as [|x l IH]; [done|]. intros H. simpl.
  rewrite (H x) by left. apply IH. intros x' ?. apply H. by right.
Qed.

Lemma name_of_line_nonempty l n : name_of_line l = Some n → n ≠ [].
Proof.
  unfold name_of_line, re_match.
  destruct (attempt _ _ _) as [m|] eqn:Hm; [|done]. intros [= <-].
  apply attempt_inv in Hm as (w & c' & _ & Hl & -> & _).
  by apply name_line_strip in Hl as [-> ?].
Qed.

Lemma name_of_label_nonempty l n : name_of_label l = Some n → n ≠ [].
Proof.
  unfold name_of_label.
  destruct (re_search _ _) as [m|] eqn:Hm; [|done]. intros [= <-].
  apply name_label_group in Hm as [_ Hl].
  by apply name_pair_strip in Hl as [-> ?].
Qed.

Lemma nonempty_true s : s ≠ [] → nonempty s = true.
Proof. by destruct s. Qed.

Section NameFacts.

Variable HumanName : str → human_name.

(** The two name parts that belong to a name. *)
Definition parts_of (n : str) : str * str :=
  (strip (hn_first (HumanName n)), strip (hn_last (HumanName n))).

Lemma with_parts_name r : f_name (with_parts HumanName r) = f_name r.
Proof. reflexivity. Qed.

Lemma with_parts_first_last r :
  f_first_last (with_parts HumanName r) = Some (parts_of (f_name r)).
Proof. reflexivity. Qed.

(** When the entities gave a name, the fallbacks are not run. *)
Lemma resolve_names_resolved lines r :
  nonempty (f_name r) = true →
  resolve_names HumanName lines r = with_parts HumanName r.
Proof.
  intros Hr. unfold resolve_names. cbv zeta.
  repeat (rewrite ?with_parts_name; rewrite Hr). done.
Qed.

(** The name parts are there exactly when a name is, and are its parts. *)
Lemma resolve_names_parts lines r :
  f_first_last r = None →
  let r' := resolve_names HumanName lines r in
  f_first_last r' = if nonempty (f_name r') then Some (parts_of (f_name r'))
                    else None.
Proof.
  intros Hfl r'. subst r'. unfold resolve_names. cbv zeta.
  destruct (nonempty (f_name r)) eqn:Hn.
  { repeat (rewrite ?with_parts_name; rewrite Hn).
    by rewrite with_parts_first_last. }
  rewrite Hn.
  destruct (first_some name_of_line (take 10 lines)) as [n|] eqn:H1.
  { apply first_some_elem in H1 as (l & _ & H1).
    apply name_of_line_nonempty, nonempty_true in H1.
    cbn [with_name].
    repeat (change (f_name (with_parts HumanName (set_name n r))) with n;
            rewrite H1).
    reflexivity. }
  cbn [with_name]. rewrite Hn.
  destruct (first_some name_of_label lines) as [n|] eqn:H2.
  { apply first_some_elem in H2 as (l & _ & H2).
    apply name_of_label_nonempty, nonempty_true in H2.
    cbn [with_name].
    repeat (change (f_name (with_parts HumanName (set_name n r))) with n;
            rewrite H2).
    reflexivity. }
  cbn [with_name]. by rewrite Hn, Hfl.
Qed.

End NameFacts.

(** ** Running the second fallback on a line *)

Lemma space_not_letter c : is_space c = true → ci is_az c = false.
Proof. by_cases_on_char c. Qed.

Lemma exec_lit_ci {R} s w :
  Forall2 (λ x a, ci (is_chr x) a = true) (txt s) w →
  ∀ bef aft g (k : cursor → caps → option R),
    exec (lit_ci s) (Cursor bef (w ++ aft)) g k
    = k (Cursor (rev w ++ bef) aft) g.
Proof.
  unfold lit_ci. induction 1 as [|x a xs w Hxa _ IH]; intros bef aft g k.
  - reflexivity.
  - cbn [foldr exec after before app]. rewrite Hxa, IH.
    simpl. by rewrite <- app_assoc.
Qed.

(** A first word, one white-space character and a second word, followed
    by something that is not a letter, is what [name_pair] takes. *)
Lemma exec_name_pair {R} a w1 s b w2 rest bef g
    (k : cursor → caps → option R) res :
  ci is_AZ a = true → Forall (λ c, ci is_az c = true) w1 → 1 ≤ length w1 →
  is_space s = true →
  ci is_AZ b = true → Forall (λ c, ci is_az c = true) w2 → 1 ≤ length w2 →
  stops (ci is_az) rest →
  k (Cursor (rev (a :: w1 ++ s :: b :: w2) ++ bef) rest) g = Some res →
  exec name_pair (Cursor bef (a :: w1 ++ s :: b :: w2 ++ rest)) g k = Some res.
Proof.
  intros Ha Hw1 Hl1 Hs Hb Hw2 Hl2 Hstop Hk.
  unfold name_pair. cbn [exec after before]. rewrite Ha.
  apply rep_go_greedy; [done|by apply space_not_letter|done|].
  cbn [exec after before]. rewrite Hs, Hb.
  apply rep_go_greedy; [done..|].
  rewrite <- Hk. f_equal. f_equal.
  change (a :: w1 ++ s :: b :: w2) with ([a] ++ w1 ++ [s; b] ++ w2).
  rewrite !rev_app_distr. simpl. by rewrite <- !app_assoc.
Qed.

Lemma alice_label rest :
  stops (ci is_az) rest →
  ∃ m, re_search pat_name_label (txt "Name: Alice Johnson" ++ rest) = Some m ∧
       cap1 m = txt "Alice Johnson".
Proof.
  intros Hstop. eexists. split.
  - apply search_from_hit. unfold attempt, pat_name_label.
    cbn [exec before after].
    change (txt "Name: Alice Johnson" ++ rest)
      with (txt "Name" ++ (txt ": " ++
              ("A"%char :: txt "lice" ++ " "%char :: "J"%char :: txt "ohnson" ++ rest))).
    rewrite exec_lit_ci by (repeat constructor).
    cbn [before after].
    apply rep_go_greedy; [by repeat constructor|done|simpl; lia|].
    cbn [exec].
    apply exec_name_pair; try done; try (by repeat constructor).
  - reflexivity.
Qed.

(** ** Concrete collaborators for the examples *)

(** A plain name parser: the first and the last of the words of a name;
    a name of one word has no last name. *)
Fixpoint words_from (cur : str) (s : str) : list str :=
  match s with
  | [] => match cur with [] => [] | _ => [rev cur] end
  | c :: s' =>
      if is_space c then
        match cur with
        | [] => words_from [] s'
        | _ => rev cur :: words_from [] s'
        end
      else words_from (c :: cur) s'
  end.

Definition first_and_last_word (s : str) : human_name :=
  match words_from [] s with
  | [] => Name [] []
  | [w] => Name w []
  | w :: ws => Name w (List.last ws [])
  end.

(** A field of a returned dictionary. *)
Definition result_field (k : string) (res : result (gmap string value))
    : option value :=
  match res with
  | Ok d => d !! k
  | Raise _ => None
  end.

(** ** Claims about the name *)

(** C3, as the code has it. When some PERSON span has a non-empty trimmed
    text, the resolved name is the trimmed text of the first such span and
    the name parts are read off that name: the line fallbacks are not
    applied. *)
Theorem person_span_gives_name nlp HumanName text pre e post :
  nlp text = pre ++ e :: post →
  label_ e = "PERSON" →
  strip (ent_text e) ≠ [] →
  (∀ e', e' ∈ pre → label_ e' = "PERSON" → strip (ent_text e') = []) →
  ∃ d, extract_info_with_spacy_regex nlp HumanName text = Ok d ∧
       d !! "name" = Some (VStr (strip (ent_text e))) ∧
       d !! "First Name"
       = Some (VStr (strip (hn_first (HumanName (strip (ent_text e)))))) ∧
       d !! "Last Name"
       = Some (VStr (strip (hn_last (HumanName (strip (ent_text e)))))).
Proof.
  intros Hents Hp Hne Hpre. eexists. split; [apply extract_info_fields|].
  rewrite lookup_name, lookup_first_name, lookup_last_name.
  rewrite final_name, final_first_last, Hents.
  pose proof (name_from_first_person pre e post fields0 eq_refl Hp Hne Hpre)
    as Hname.
  rewrite resolve_names_resolved
    by (rewrite Hname; by apply nonempty_true).
  rewrite with_parts_name, with_parts_first_last, Hname. done.
Qed.

(** The example of the claim: a PERSON span "Jane Doe" wins over the
    first line "John Smith works here". *)
Lemma person_span_gives_name_witness :
  ∃ d, extract_info_with_spacy_regex
         (λ _, [Ent (txt "Jane Doe") "PERSON"]) first_and_last_word
         (txt "John Smith works here") = Ok d ∧
       d !! "name" = Some (VStr (txt "Jane Doe")) ∧
       d !! "First Name" = Some (VStr (txt "Jane")) ∧
       d !! "Last Name" = Some (VStr (txt "Doe")).
Proof.
  apply (person_span_gives_name
           (λ _, [Ent (txt "Jane Doe") "PERSON"]) first_and_last_word
           (txt "John Smith works here") [] (Ent (txt "Jane Doe") "PERSON") []).
  - reflexivity.
  - reflexivity.
  - vm_compute. discriminate.
  - intros e' He'. by apply elem_of_nil in He'.
Defined.

(** C3 as stated fails: a PERSON span whose text is blank is passed over,
    and the first line fallback gives the name. *)
Lemma blank_person_span_counterexample :
  let res := extract_info_with_spacy_regex
               (λ _, [Ent (txt " ") "PERSON"]) first_and_last_word
               (txt "John Smith works here") in
  result_field "name" res = Some (VStr (txt "John Smith")) ∧
  result_field "name" res ≠ Some (VStr (strip (txt " "))).
Proof.
  cbv zeta. rewrite extract_info_fields. cbn [result_field].
  rewrite lookup_name. split; [by vm_compute|]. vm_compute. discriminate.
Qed.

Lemma no_person_no_name ents :
  (∀ e, e ∈ ents → label_ e ≠ "PERSON") →
  f_name (foldl step_fields fields0 ents) = [].
Proof.
  intros H. apply name_not_set; [done|].
  intros e He Hp. by destruct (H e He).
Qed.

(** C4, as the code has it. With no PERSON span, no match of the first
    fallback in the first ten lines and no match of the second fallback on
    an earlier line, a line that (trimmed) begins with "Name: Alice Johnson"
    and goes on with something other than a letter gives the name
    "Alice Johnson", the group of the second fallback. *)
Theorem name_label_fallback nlp HumanName text pre line post rest :
  (∀ e, e ∈ nlp text → label_ e ≠ "PERSON") →
  (∀ l, l ∈ take 10 (splitlines text) →
        re_match pat_name_line (strip l) = None) →
  splitlines text = pre ++ line :: post →
  (∀ l, l ∈ pre → re_search pat_name_label (strip l) = None) →
  strip line = txt "Name: Alice Johnson" ++ rest →
  stops (ci is_az) rest →
  ∃ d, extract_info_with_spacy_regex nlp HumanName text = Ok d ∧
       d !! "name" = Some (VStr (txt "Alice Johnson")) ∧
       d !! "First Name"
       = Some (VStr (strip (hn_first (HumanName (txt "Alice Johnson"))))) ∧
       d !! "Last Name"
       = Some (VStr (strip (hn_last (HumanName (txt "Alice Johnson"))))).
Proof.
  intros Hents Hten Hlines Hpre Hline Hrest.
  eexists. split; [apply extract_info_fields|].
  rewrite lookup_name, lookup_first_name, lookup_last_name.
  rewrite final_name, final_first_last.
  pose proof (no_person_no_name _ Hents) as Hname.
  set (r1 := foldl step_fields fields0 (nlp text)) in *.
  assert (H1 : first_some name_of_line (take 10 (splitlines text)) = None).
  { apply first_some_none. intros l Hl. unfold name_of_line.
    by rewrite (Hten l Hl). }
  assert (H2 : first_some name_of_label (splitlines text)
               = Some (txt "Alice Johnson")).
  { rewrite Hlines, first_some_app.
    - cbn [first_some]. unfold name_of_label. rewrite Hline.
      destruct (alice_label rest Hrest) as (m & -> & Hm). simpl.
      rewrite Hm. reflexivity.
    - intros l Hl. unfold name_of_label. by rewrite (Hpre l Hl). }
  assert (Hres : resolve_names HumanName (splitlines text) r1
                 = with_parts HumanName (set_name (txt "Alice Johnson") r1)).
  { unfold resolve_names. cbv zeta.
    repeat first [rewrite Hname | rewrite H1 | rewrite H2
                 | progress cbn [nonempty with_name]].
    done. }
  rewrite Hres. done.
Qed.

Definition fifteen_lines : str :=
  txt "Resume" ++ repeat newline 14 ++ txt "Name: Alice Johnson".

(** The example of the claim: the name is on line 15. *)
Lemma name_label_fallback_witness :
  ∃ d, extract_info_with_spacy_regex (λ _, []) first_and_last_word
         fifteen_lines = Ok d ∧
       d !! "name" = Some (VStr (txt "Alice Johnson")) ∧
       d !! "First Name" = Some (VStr (txt "Alice")) ∧
       d !! "Last Name" = Some (VStr (txt "Johnson")).
Proof.
  apply (name_label_fallback (λ _, []) first_and_last_word fifteen_lines
           (txt "Resume" :: repeat [] 13) (txt "Name: Alice Johnson") [] []);
    try reflexivity.
  all: intros x Hx; vm_compute in Hx.
  all: repeat (apply elem_of_cons in Hx as [->|Hx]; [reflexivity|]).
  all: by apply elem_of_nil in Hx.
Defined.

Definition two_name_lines : str :=
  txt "Name: Bob Brown" ++ repeat newline 14 ++ txt "Name: Alice Johnson".

(** C4 as stated fails: an earlier line that the second fallback matches
    wins, although there is no PERSON span, the first fallback matches none
    of the first ten lines and line 15 is "Name: Alice Johnson". *)
Lemma earlier_name_line_counterexample :
  let nlp : str → list ent := λ _, [] in
  let res := extract_info_with_spacy_regex nlp first_and_last_word
               two_name_lines in
  nlp two_name_lines = [] ∧
  forallb (λ l, bool_decide (re_match pat_name_line (strip l) = None))
    (take 10 (splitlines two_name_lines)) = true ∧
  splitlines two_name_lines !! 14 = Some (txt "Name: Alice Johnson") ∧
  result_field "name" res = Some (VStr (txt "Bob Brown")) ∧
  result_field "name" res ≠ Some (VStr (txt "Alice Johnson")).
Proof.
  cbv zeta. rewrite extract_info_fields. cbn [result_field].
  rewrite lookup_name. split_and!; by vm_compute.
Qed.

(** ** The keys of the result *)

Definition links (r : fields) : option str * option str :=
  (f_linkedin r, f_github r).

Lemma links_after_ents ents :
  ∀ r, links (foldl step_fields r ents) = links r.
Proof.
  induction ents as [|e ents IH]; intros r; simpl; [done|].
  rewrite IH. unfold step_fields. by repeat case_match.
Qed.

Lemma resolve_names_links HumanName lines r :
  links (resolve_names HumanName lines r) = links r.
Proof.
  unfold resolve_names, with_name. by repeat case_match.
Qed.

Lemma final_links nlp HumanName text :
  links (final_fields nlp HumanName text)
  = (found pat_linkedin text, found pat_github text).
Proof.
  unfold final_fields, resolve_found, resolve_phone.
  set (r := resolve_names _ _ _).
  assert (Hr : links r = (None, None)).
  { unfold r. by rewrite resolve_names_links, links_after_ents. }
  clearbody r. destruct r as [? ? ? ? ? ? li gh].
  injection Hr as -> ->. by repeat case_match.
Qed.

Lemma dom_to_dict r :
  dom (to_dict r) ⊆
  list_to_set (C := gset string)
    ["name"; "email"; "phone"; "location"; "skills";
     "First Name"; "Last Name"; "linkedin"; "github"].
Proof.
  intros k Hk. apply elem_of_dom in Hk. rewrite lookup_to_dict in Hk.
  unfold field in Hk. apply elem_of_list_to_set.
  repeat (case_decide; [subst k; set_solver|]).
  by destruct Hk.
Qed.

(** C5, as the code has it. Every returned record has the five keys it
    starts with: name, email, phone and location with a string (empty when
    unresolved) and skills with a list (empty when there is none). The name
    parts are present exactly when a name was resolved, and are then the
    trimmed parts of that name; linkedin and github are present exactly
    when their pattern is found. There is no other key. *)
Theorem record_keys nlp HumanName text :
  ∃ d name email phone location skills,
    extract_info_with_spacy_regex nlp HumanName text = Ok d ∧
    d !! "name" = Some (VStr name) ∧
    d !! "email" = Some (VStr email) ∧
    d !! "phone" = Some (VStr phone) ∧
    d !! "location" = Some (VStr location) ∧
    d !! "skills" = Some (VList skills) ∧
    d !! "First Name"
    = (if nonempty name
       then Some (VStr (strip (hn_first (HumanName name)))) else None) ∧
    d !! "Last Name"
    = (if nonempty name
       then Some (VStr (strip (hn_last (HumanName name)))) else None) ∧
    d !! "linkedin" = VStr <$> found pat_linkedin text ∧
    d !! "github" = VStr <$> found pat_github text ∧
    dom d ⊆ list_to_set (C := gset string)
              ["name"; "email"; "phone"; "location"; "skills";
               "First Name"; "Last Name"; "linkedin"; "github"].
Proof.
  set (r := final_fields nlp HumanName text).
  exists (to_dict r), (f_name r), (f_email r), (f_phone r), (f_location r),
    (f_skills r).
  split; [apply extract_info_fields|].
  rewrite lookup_name, lookup_email, lookup_phone, lookup_location,
    lookup_skills, lookup_first_name, lookup_last_name, lookup_linkedin,
    lookup_github.
  pose proof (final_links nlp HumanName text) as Hl. fold r in Hl.
  injection Hl as -> ->.
  assert (Hfl : f_first_last r
                = if nonempty (f_name r) then Some (parts_of HumanName (f_name r))
                  else None).
  { unfold r. rewrite final_first_last, final_name.
    apply resolve_names_parts. by rewrite first_last_after_ents. }
  rewrite Hfl. split_and!; try done.
  - by destruct (nonempty (f_name r)).
  - by destruct (nonempty (f_name r)).
  - apply dom_to_dict.
Qed.

(** C5 as stated fails: when no name is resolved the record has no name
    parts at all, while its five initial keys are there. *)
Lemma no_name_parts_counterexample :
  let res := extract_info_with_spacy_regex (λ _, []) first_and_last_word [] in
  result_field "name" res = Some (VStr []) ∧
  result_field "skills" res = Some (VList []) ∧
  result_field "First Name" res = None ∧
  result_field "Last Name" res = None.
Proof.
  cbv zeta. rewrite extract_info_fields. cbn [result_field].
  rewrite lookup_name, lookup_skills, lookup_first_name, lookup_last_name.
  split_and!; by vm_compute.
Qed.

(** ** The phone fallback *)

Lemma digits_of_app s1 s2 : digits_of (s1 ++ s2) = digits_of s1 ++ digits_of s2.
Proof. apply filter_app. Qed.

Lemma digits_of_digits ds :
  Forall (λ c, is_digit c = true) ds → digits_of ds = ds.
Proof.
  induction 1 as [|c ds Hc _ IH]; [done|].
  unfold digits_of in *. rewrite filter_cons, decide_True by done.
  by rewrite IH.
Qed.

Lemma digits_of_seps seps :
  Forall (λ c, phone_sep c = true) seps → digits_of seps = [].
Proof.
  induction 1 as [|c seps Hc _ IH]; [done|].
  unfold digits_of in *. rewrite filter_cons, decide_False; [done|].
  rewrite (sep_not_digit c Hc). done.
Qed.

(** The shape of what the fallback pattern takes: perhaps "+91" and
    separators, then ten to thirteen digits. *)
Lemma phone_shape w :
  lang pat_phone w →
  ∃ pre ds, w = pre ++ ds ∧
            (pre = [] ∨ ∃ seps, pre = txt "+91" ++ seps ∧
                                Forall (λ c, phone_sep c = true) seps) ∧
            Forall (λ c, is_digit c = true) ds ∧
            10 ≤ length ds ∧ length ds ≤ 13.
Proof.
  unfold pat_phone, lit. cbn [lang foldr txt list_ascii_of_string].
  intros (w0 & w1 & -> & -> & pre & w2 & -> & Hpre & ds & w3 & ->
          & (Hds & Hlo & Hhi) & ->).
  exists pre, ds. rewrite app_nil_r. cbn [app].
  split_and!; [done| |done|done|by apply Hhi].
  destruct Hpre as [->|Hpre]; [by left|right].
  destruct Hpre as (p & seps & -> & Hp & Hseps & _).
  destruct Hp as (x & r1 & -> & (a & -> & Ha) & y & r2 & -> & (b & -> & Hb)
                  & z & r3 & -> & (c & -> & Hc) & ->).
  apply is_chr_eq in Ha as ->. apply is_chr_eq in Hb as ->.
  apply is_chr_eq in Hc as ->.
  exists seps. split; [reflexivity|done].
Qed.

(** C6. Whatever the fallback pattern finds in a text is an optional
    "+91" prefix with separators followed by a run of ten to thirteen
    digits, and it fails [is_valid_phone] exactly when the prefix is there
    and the run has 12 or 13 digits (the two prefix digits then bring the
    stripped count above 13). *)
Theorem phone_fallback_validity text m :
  re_search pat_phone text = Some m →
  ∃ pre ds,
    group0 m = pre ++ ds ∧
    (pre = [] ∨ ∃ seps, pre = txt "+91" ++ seps ∧
                        Forall (λ c, phone_sep c = true) seps) ∧
    Forall (λ c, is_digit c = true) ds ∧
    10 ≤ length ds ∧ length ds ≤ 13 ∧
    (is_valid_phone (group0 m) = false ↔ pre ≠ [] ∧ 12 ≤ length ds).
Proof.
  intros H. apply search_from_attempt in H as (c & H & _).
  apply attempt_inv in H as (w & c' & _ & Hl & -> & _).
  apply phone_shape in Hl as (pre & ds & -> & Hpre & Hds & Hlo & Hhi).
  exists pre, ds. split_and!; try done.
  unfold is_valid_phone. rewrite re_sub_non_digit, digits_of_app.
  rewrite (digits_of_digits ds Hds), length_app.
  rewrite andb_false_iff, !Nat.leb_gt.
  destruct Hpre as [->|(seps & -> & Hseps)].
  - simpl. split; [lia|]. by intros [? _].
  - rewrite digits_of_app, (digits_of_seps seps Hseps), app_nil_r.
    change (length (digits_of (txt "+91"))) with 2.
    split; [|lia]. intros ?. split; [done|lia].
Qed.

(** A text in which the pattern finds a prefixed run of 12 digits. *)
Lemma phone_fallback_validity_witness :
  ∃ m, re_search pat_phone (txt "x+91 123456789012") = Some m ∧
       ∃ pre ds,
         group0 m = pre ++ ds ∧
         (pre = [] ∨ ∃ seps, pre = txt "+91" ++ seps ∧
                             Forall (λ c, phone_sep c = true) seps) ∧
         Forall (λ c, is_digit c = true) ds ∧
         10 ≤ length ds ∧ length ds ≤ 13 ∧
         (is_valid_phone (group0 m) = false ↔ pre ≠ [] ∧ 12 ≤ length ds).
Proof.
  eexists. split; [reflexivity|].
  apply (phone_fallback_validity (txt "x+91 123456789012")). reflexivity.
Defined.

Example phone_fallback_rejected :
  (group0 <$> re_search pat_phone (txt "x+91 123456789012"))
  = Some (txt "+91 123456789012")
  ∧ is_valid_phone (txt "+91 123456789012") = false.
Proof. split; reflexivity. Qed.

(** ** The email field *)

Lemma email_after_ents ents :
  ∀ r, f_email (foldl step_fields r ents) = f_email r.
Proof.
  induction ents as [|e ents IH]; intros r; simpl; [done|].
  rewrite IH. unfold step_fields. by repeat case_match.
Qed.

Lemma resolve_names_email HumanName lines r :
  f_email (resolve_names HumanName lines r) = f_email r.
Proof. unfold resolve_names, with_name. by repeat case_match. Qed.

Lemma final_email nlp HumanName text :
  f_email (final_fields nlp HumanName text)
  = default [] (found pat_email text).
Proof.
  unfold final_fields, resolve_found, resolve_phone.
  set (r := resolve_names _ _ _).
  assert (Hr : f_email r = []).
  { unfold r. by rewrite resolve_names_email, email_after_ents. }
  clearbody r. by repeat case_match.
Qed.

Lemma well_formed_email_intro l d t :
  Forall (λ c, email_local c = true) l → 1 ≤ length l →
  Forall (λ c, email_domain c = true) d → 1 ≤ length d →
  Forall (λ c, email_tail c = true) t → 1 ≤ length t →
  starts_with is_word l → starts_with is_word (rev t) →
  well_formed_email (l ++ "@"%char :: d ++ "."%char :: t).
Proof.
  intros Hl Hl1 Hd Hd1 Ht Ht1 Hfirst Hlast. split_and!.
  - unfold pat_email. cbn [lang].
    exists [], (l ++ "@"%char :: d ++ "."%char :: t). split_and!; try done.
    exists l, ("@"%char :: d ++ "."%char :: t). split_and!; try done.
    exists ["@"%char], (d ++ "."%char :: t). split_and!; try done; [by eexists|].
    exists d, ("."%char :: t). split_and!; try done.
    exists ["."%char], t. split_and!; try done; [by eexists|].
    exists t, []. by rewrite app_nil_r.
  - destruct l; [simpl in Hl1; lia|done].
  - change (l ++ "@"%char :: d ++ "."%char :: t)
      with (l ++ ["@"%char] ++ d ++ ["."%char] ++ t).
    rewrite !rev_app_distr, <- !app_assoc.
    destruct (rev t); [done|done].
Qed.

(** C9. An address that the email pattern accepts in full, standing after
    text that has no "@" and is empty or ends in white space and before
    text that is empty or begins with white space, is the email of the
    result; so two texts that embed the same address in different
    surroundings of this kind give the same email. *)
Theorem email_regardless_of_surroundings nlp HumanName a pre post pre' post' :
  well_formed_email a →
  Forall (λ c, c ≠ "@"%char) pre → blank_start (rev pre) → blank_start post →
  Forall (λ c, c ≠ "@"%char) pre' → blank_start (rev pre') → blank_start post' →
  ∃ d d',
    extract_info_with_spacy_regex nlp HumanName (pre ++ a ++ post) = Ok d ∧
    extract_info_with_spacy_regex nlp HumanName (pre' ++ a ++ post') = Ok d' ∧
    d !! "email" = Some (VStr a) ∧
    d' !! "email" = d !! "email".
Proof.
  intros Ha Hpre Hends Hpost Hpre' Hends' Hpost'.
  assert (Hone : ∀ p q, Forall (λ c, c ≠ "@"%char) p → blank_start (rev p) →
                        blank_start q →
                        to_dict (final_fields nlp HumanName (p ++ a ++ q))
                        !! "email" = Some (VStr a)).
  { intros p q Hp Hpe Hq. rewrite lookup_email, final_email. unfold found.
    destruct (email_found p a q Ha Hp Hpe Hq) as (m & -> & Hm).
    simpl. by rewrite Hm. }
  eexists _, _. split; [apply extract_info_fields|].
  split; [apply extract_info_fields|].
  by rewrite !Hone.
Qed.

Lemma email_regardless_of_surroundings_witness :
  ∃ d d',
    extract_info_with_spacy_regex (λ _, []) first_and_last_word
      (txt "  " ++ txt "jane.doe@example.com" ++ [newline]) = Ok d ∧
    extract_info_with_spacy_regex (λ _, []) first_and_last_word
      (txt "Email: " ++ txt "jane.doe@example.com" ++ []) = Ok d' ∧
    d !! "email" = Some (VStr (txt "jane.doe@example.com")) ∧
    d' !! "email" = d !! "email".
Proof.
  apply (email_regardless_of_surroundings (λ _, []) first_and_last_word
           (txt "jane.doe@example.com") (txt "  ") [newline]
           (txt "Email: ") []).
  - apply (well_formed_email_intro (txt "jane.doe") (txt "example") (txt "com"));
      try (by repeat constructor); simpl; lia.
  - repeat constructor; discriminate.
  - reflexivity.
  - reflexivity.
  - repeat constructor; discriminate.
  - reflexivity.
  - exact I.
Defined.

(** ** Totality *)

(** C10. For every text and every sequence of spans of the recognizer the
    pipeline returns a dictionary: no subscript, method call or group
    access of it raises.  So [parse_resume] never takes its error branch,
    and with nothing to find the result is the initial, all-empty
    dictionary. *)
Theorem pipeline_returns :
  (∀ nlp HumanName text,
     ∃ d, extract_info_with_spacy_regex nlp HumanName text = Ok d ∧
          ∀ page exn_str (t : list (event page)),
            parse_resume page nlp HumanName exn_str text t = (Ok d, t))
  ∧ (∀ HumanName,
       extract_info_with_spacy_regex (λ _, []) HumanName []
       = Ok {[ "name" := VStr []; "email" := VStr []; "phone" := VStr [];
               "location" := VStr []; "skills" := VList [] ]}).
Proof.
  split.
  - intros nlp HumanName text. eexists. split; [apply extract_info_fields|].
    intros page exn_str t. unfold parse_resume, try_except, lift.
    by rewrite extract_info_fields.
  - intros HumanName. rewrite extract_info_fields, initial_dict.
    reflexivity.
Qed.

(** ** The PDF path *)

(** The pages on which OCR was run, in the order of the calls. *)
Definition ocr_calls {page} (trace : list (event page)) : list page :=
  omap (λ e, match e with OcrPage p => Some p | _ => None end) trace.

(** Python's ["\n".join(parts)]: a newline between consecutive parts. *)
Fixpoint join_lines (parts : list str) : str :=
  match parts with
  | [] => []
  | [s] => s
  | s :: parts' => s ++ newline :: join_lines parts'
  end.

Lemma ocr_calls_app {page} (t1 t2 : list (event page)) :
  ocr_calls (t1 ++ t2) = ocr_calls t1 ++ ocr_calls t2.
Proof. apply omap_app. Qed.

Lemma ocr_calls_cons {page} (e : event page) t :
  ocr_calls (e :: t)
  = match e with OcrPage p => [p] | _ => [] end ++ ocr_calls t.
Proof. by destruct e. Qed.

Section ServiceFacts.

Variable page : Type.
Variable nlp : str → list ent.
Variable HumanName : str → human_name.
Variable fitz_open : list Byte.byte → list page.
Variable get_text : page → str.
Variable image_to_string : page → str.
Variable exn_str : exn → str.

(** A loop that calls one collaborator per page and appends to the text. *)
Lemma for_pages_calls (ev : page → event page) (f : page → str)
    (g : str → str) doc :
  ∀ text t,
    for_pages page (λ text p, x ← call (ev p) (f p); mret (text ++ g x))
      doc text t
    = (Ok (text ++ concat ((λ p, g (f p)) <$> doc)), t ++ (ev <$> doc)).
Proof.
  induction doc as [|p doc IH]; intros text t.
  - simpl. by rewrite !app_nil_r.
  - cbn [for_pages]. unfold mbind at 1, io_bind.
    unfold mbind at 1, io_bind, call, mret, io_ret.
    rewrite IH. simpl. by rewrite <- !app_assoc.
Qed.

Lemma ocr_calls_get_text doc :
  ocr_calls (GetText <$> doc) = ([] : list page).
Proof. induction doc as [|p doc IH]; [done|]. exact IH. Qed.

Lemma ocr_calls_ocr doc : ocr_calls (OcrPage <$> doc) = (doc : list page).
Proof.
  induction doc as [|p doc IH]; [done|].
  change (ocr_calls (OcrPage <$> p :: doc))
    with (p :: ocr_calls (OcrPage <$> doc)).
  by rewrite IH.
Qed.

Lemma extract_text_with_ocr_run file_bytes t :
  extract_text_with_ocr page fitz_open image_to_string file_bytes t
  = (Ok (concat ((λ p, image_to_string p ++ [newline])
                   <$> fitz_open file_bytes)),
     t ++ [FitzOpen] ++ (OcrPage <$> fitz_open file_bytes) ++ [DocClose]).
Proof.
  unfold extract_text_with_ocr.
  unfold mbind at 1, io_bind, call. unfold mbind at 1, io_bind.
  rewrite (for_pages_calls OcrPage image_to_string (λ x, x ++ [newline])).
  unfold mbind, io_bind, mret, io_ret, call. simpl.
  by rewrite <- !app_assoc.
Qed.

(** C8, as the code has it. OCR runs exactly when the direct text, trimmed,
    is shorter than 100 characters: then it runs once on each page, in page
    order, and the returned text is the per-page OCR outputs, each followed
    by a newline, in place of the direct text; otherwise OCR is not called
    and the direct text is returned. *)
Theorem pdf_text_and_ocr_calls file_bytes :
  let doc := fitz_open file_bytes in
  let direct := concat (get_text <$> doc) in
  ∃ text trace,
    extract_text_from_pdf page fitz_open get_text image_to_string
      file_bytes [] = (Ok text, trace) ∧
    ocr_calls trace = (if length (strip direct) <? 100 then doc else []) ∧
    text = (if length (strip direct) <? 100
            then concat ((λ p, image_to_string p ++ [newline]) <$> doc)
            else direct).
Proof.
  intros doc direct. unfold extract_text_from_pdf.
  unfold mbind at 1, io_bind, call. unfold mbind at 1, io_bind.
  rewrite (for_pages_calls GetText get_text (λ x, x)).
  unfold mbind at 1, io_bind. cbn [app].
  fold doc. change (concat ((λ p, get_text p) <$> doc)) with direct.
  destruct (length (strip direct) <? 100) eqn:Hlen.
  - rewrite extract_text_with_ocr_run. eexists _, _. split; [reflexivity|].
    split; [|done]. fold doc.
    repeat first [rewrite ocr_calls_cons | rewrite ocr_calls_app].
    rewrite ocr_calls_get_text, ocr_calls_ocr. simpl. by rewrite app_nil_r.
  - eexists _, _. split; [reflexivity|]. split; [|done].
    repeat first [rewrite ocr_calls_cons | rewrite ocr_calls_app].
    by rewrite ocr_calls_get_text.
Qed.


(** C1: a declared content type other than application/pdf. The 400 error
    that the function raises is caught by its own [except Exception] and
    leaves as a 500 error, the kind used for processing failures; nothing
    was read or extracted. *)
Theorem non_pdf_leaves_as_status_500 :
  parse_resume_pdf page nlp HumanName fitz_open get_text image_to_string
    exn_str (Upload "text/plain" []) []
  = (Raise (HTTPException 500
              (txt "Error processing PDF: "
               ++ exn_str (HTTPException 400 (txt "File must be a PDF")))),
     []).
Proof. reflexivity. Qed.

End ServiceFacts.

(** C8 as stated fails on the text: for a document of one page whose OCR
    output is "x" the function returns "x" followed by a newline, not the
    newline-joined outputs (which is "x"). *)
Lemma ocr_text_counterexample :
  let run := extract_text_from_pdf unit (λ _, [()]) (λ _, [])
               (λ _, txt "x") [] [] in
  run = (Ok (txt "x" ++ [newline]),
         [FitzOpen; GetText (); DocClose; FitzOpen; OcrPage (); DocClose]) ∧
  run.1 ≠ Ok (join_lines [txt "x"]).
Proof. split; [reflexivity|]. vm_compute. discriminate. Qed.

(** * Further properties of the program *)

(** ** Location *)

Definition is_place (e : ent) : Prop := label_ e = "GPE" ∨ label_ e = "LOC".

Lemma place_test e :
  label_is e "GPE" || label_is e "LOC" = true ↔ is_place e.
Proof.
  unfold is_place. rewrite orb_true_iff, !label_is_eq. done.
Qed.

Lemma step_location r e :
  f_location (step_fields r e)
  = if (label_is e "GPE" || label_is e "LOC") && negb (nonempty (f_location r))
    then strip (ent_text e) else f_location r.
Proof.
  unfold step_fields.
  destruct (label_is e "PERSON") eqn:Hp.
  - apply label_is_eq in Hp. unfold label_is. rewrite Hp. simpl.
    by destruct (nonempty (f_name r)).
  - simpl. by repeat case_match.
Qed.

Lemma location_kept ents :
  ∀ r, nonempty (f_location r) = true →
       f_location (foldl step_fields r ents) = f_location r.
Proof.
  induction ents as [|e ents IH]; intros r Hr; simpl; [done|].
  assert (He : f_location (step_fields r e) = f_location r).
  { rewrite step_location, Hr. by rewrite andb_false_r. }
  rewrite IH; [done|]. by rewrite He.
Qed.

Lemma location_not_set ents :
  ∀ r, f_location r = [] →
       (∀ e, e ∈ ents → is_place e → strip (ent_text e) = []) →
       f_location (foldl step_fields r ents) = [].
Proof.
  induction ents as [|e ents IH]; intros r Hr Hents; simpl; [done|].
  apply IH.
  - rewrite step_location, Hr. simpl. rewrite andb_true_r.
    destruct (label_is e "GPE" || label_is e "LOC") eqn:Hp; [|done].
    apply Hents; [left|]. by apply place_test.
  - intros e' He'. apply Hents. by right.
Qed.

Lemma location_from_first_place pre e post r :
  f_location r = [] →
  is_place e →
  strip (ent_text e) ≠ [] →
  (∀ e', e' ∈ pre → is_place e' → strip (ent_text e') = []) →
  f_location (foldl step_fields r (pre ++ e :: post)) = strip (ent_text e).
Proof.
  intros Hr Hp Hne Hpre. rewrite foldl_app. cbn [foldl].
  pose proof (location_not_set pre r Hr Hpre) as H0.
  assert (He : f_location (step_fields (foldl step_fields r pre) e)
               = strip (ent_text e)).
  { rewrite step_location, H0. apply place_test in Hp. by rewrite Hp. }
  rewrite location_kept; [done|]. rewrite He. by destruct (strip (ent_text e)).
Qed.

Lemma resolve_names_location HumanName lines r :
  f_location (resolve_names HumanName lines r) = f_location r.
Proof. unfold resolve_names, with_name. by repeat case_match. Qed.

Lemma final_location nlp HumanName text :
  f_location (final_fields nlp HumanName text)
  = f_location (foldl step_fields fields0 (nlp text)).
Proof.
  unfold final_fields, resolve_found, resolve_phone.
  repeat case_match; simpl; by rewrite resolve_names_location.
Qed.

(** X1. The location of the result is the trimmed text of the first span
    labelled GPE or LOC whose trimmed text is not empty, whatever the
    text says. *)
Theorem location_is_first_place_span nlp HumanName text pre e post :
  nlp text = pre ++ e :: post →
  is_place e →
  strip (ent_text e) ≠ [] →
  (∀ e', e' ∈ pre → is_place e' → strip (ent_text e') = []) →
  ∃ d, extract_info_with_spacy_regex nlp HumanName text = Ok d ∧
       d !! "location" = Some (VStr (strip (ent_text e))).
Proof.
  intros Hents Hp Hne Hpre. eexists. split; [apply extract_info_fields|].
  rewrite lookup_location, final_location, Hents.
  by rewrite location_from_first_place.
Qed.

Lemma location_is_first_place_span_witness :
  ∃ d, extract_info_with_spacy_regex
         (λ _, [Ent (txt "Jane Doe") "PERSON"; Ent (txt " Pune ") "GPE";
                Ent (txt "India") "LOC"])
         first_and_last_word (txt "Jane Doe, Pune, India") = Ok d ∧
       d !! "location" = Some (VStr (txt "Pune")).
Proof.
  apply (location_is_first_place_span
           (λ _, [Ent (txt "Jane Doe") "PERSON"; Ent (txt " Pune ") "GPE";
                  Ent (txt "India") "LOC"])
           first_and_last_word (txt "Jane Doe, Pune, India")
           [Ent (txt "Jane Doe") "PERSON"] (Ent (txt " Pune ") "GPE")
           [Ent (txt "India") "LOC"]).
  - reflexivity.
  - by left.
  - vm_compute. discriminate.
  - intros e' He' [Hl|Hl]; apply list_elem_of_singleton in He'; subst e';
      discriminate Hl.
Defined.

(** X2. The location has no fallback: without a GPE or LOC span of
    non-empty trimmed text it is the empty string, whatever the text. *)
Theorem location_empty_without_place_span nlp HumanName text :
  (∀ e, e ∈ nlp text → is_place e → strip (ent_text e) = []) →
  ∃ d, extract_info_with_spacy_regex nlp HumanName text = Ok d ∧
       d !! "location" = Some (VStr []).
Proof.
  intros Hents. eexists. split; [apply extract_info_fields|].
  rewrite lookup_location, final_location.
  by rewrite location_not_set.
Qed.

Lemma location_empty_without_place_span_witness :
  ∃ d, extract_info_with_spacy_regex
         (λ _, [Ent (txt "Jane Doe") "PERSON"]) first_and_last_word
         (txt "Location: Pune, India") = Ok d ∧
       d !! "location" = Some (VStr []).
Proof.
  apply (location_empty_without_place_span
           (λ _, [Ent (txt "Jane Doe") "PERSON"]) first_and_last_word
           (txt "Location: Pune, India")).
  intros e He [Hl|Hl]; apply list_elem_of_singleton in He; subst e;
    discriminate Hl.
Defined.

(** ** Phone *)

Lemma valid_phone_nonempty num : is_valid_phone num = true → nonempty num = true.
Proof. by destruct num. Qed.

Lemma phone_after_ents ents :
  ∀ r, f_phone (foldl step_fields r ents) = f_phone r.
Proof.
  induction ents as [|e ents IH]; intros r; simpl; [done|].
  rewrite IH. unfold step_fields. by repeat case_match.
Qed.

Lemma resolve_names_phone HumanName lines r :
  f_phone (resolve_names HumanName lines r) = f_phone r.
Proof. unfold resolve_names, with_name. by repeat case_match. Qed.

(** The phone of the result: the first valid candidate among the PHONE
    spans, else what the fallback pattern finds if it is valid, else
    nothing. *)
Definition phone_of (ents : list ent) (text : str) : str :=
  match first_some valid_phone (phone_candidates ents) with
  | Some num => num
  | None =>
      match found pat_phone text with
      | Some g => if is_valid_phone g then g else []
      | None => []
      end
  end.

Lemma final_phone nlp HumanName text :
  f_phone (final_fields nlp HumanName text) = phone_of (nlp text) text.
Proof.
  unfold final_fields, resolve_found, resolve_phone, phone_of.
  set (r := resolve_names _ _ _).
  assert (Hr : f_phone r = []).
  { unfold r. by rewrite resolve_names_phone, phone_after_ents. }
  clearbody r.
  destruct (first_some valid_phone (phone_candidates (nlp text)))
    as [num|] eqn:Hc.
  - apply first_some_elem in Hc as (x & _ & Hx). unfold valid_phone in Hx.
    destruct (is_valid_phone x) eqn:Hv; [|done]. injection Hx as ->.
    apply valid_phone_nonempty in Hv.
    destruct (found pat_email text); cbn [set_email set_phone f_phone];
      rewrite Hv; by repeat case_match.
  - destruct (found pat_email text); cbn [set_email f_phone]; rewrite Hr;
      cbn [nonempty]; by repeat case_match.
Qed.

(** X3. The phone of every result is validated: it is the empty string or
    a string that [is_valid_phone] accepts. *)
Theorem phone_is_empty_or_valid nlp HumanName text :
  ∃ d phone,
    extract_info_with_spacy_regex nlp HumanName text = Ok d ∧
    d !! "phone" = Some (VStr phone) ∧
    (phone = [] ∨ is_valid_phone phone = true).
Proof.
  eexists _, _. split; [apply extract_info_fields|].
  split; [apply lookup_phone|]. rewrite final_phone. unfold phone_of.
  destruct (first_some valid_phone _) as [num|] eqn:Hc.
  - apply first_some_elem in Hc as (x & _ & Hx). unfold valid_phone in Hx.
    destruct (is_valid_phone x) eqn:Hv; [|done]. injection Hx as ->. by right.
  - destruct (found pat_phone text) as [g|]; [|by left].
    destruct (is_valid_phone g) eqn:Hv; [by right|by left].
Qed.

Lemma first_valid_candidate pre e post :
  label_ e = "PHONE" →
  is_valid_phone (strip (ent_text e)) = true →
  (∀ e', e' ∈ pre → label_ e' = "PHONE" →
         is_valid_phone (strip (ent_text e')) = false) →
  first_some valid_phone (phone_candidates (pre ++ e :: post))
  = Some (strip (ent_text e)).
Proof.
  intros Hl Hv Hpre. unfold phone_candidates.
  rewrite filter_app, fmap_app, first_some_app.
  - rewrite filter_cons, decide_True by (by apply label_is_eq).
    cbn [fmap list_fmap first_some]. unfold valid_phone. by rewrite Hv.
  - intros x Hx. apply list_elem_of_fmap in Hx as (e' & -> & He').
    apply list_elem_of_filter in He' as [Hl' He'].
    unfold valid_phone. rewrite Hpre; [done|done|by apply label_is_eq].
Qed.

(** X4. A PHONE span whose trimmed text is valid, with no valid PHONE span
    before it, gives the phone: its trimmed text is stored as it is
    (separators and all) and the text is not searched. *)
Theorem phone_is_first_valid_span nlp HumanName text pre e post :
  nlp text = pre ++ e :: post →
  label_ e = "PHONE" →
  is_valid_phone (strip (ent_text e)) = true →
  (∀ e', e' ∈ pre → label_ e' = "PHONE" →
         is_valid_phone (strip (ent_text e')) = false) →
  ∃ d, extract_info_with_spacy_regex nlp HumanName text = Ok d ∧
       d !! "phone" = Some (VStr (strip (ent_text e))).
Proof.
  intros Hents Hl Hv Hpre. eexists. split; [apply extract_info_fields|].
  rewrite lookup_phone, final_phone, Hents. unfold phone_of.
  by rewrite first_valid_candidate.
Qed.

Lemma phone_is_first_valid_span_witness :
  ∃ d, extract_info_with_spacy_regex
         (λ _, [Ent (txt "12345") "PHONE"; Ent (txt " +91 98765 43210 ") "PHONE"])
         first_and_last_word (txt "call 9999999999") = Ok d ∧
       d !! "phone" = Some (VStr (txt "+91 98765 43210")).
Proof.
  apply (phone_is_first_valid_span
           (λ _, [Ent (txt "12345") "PHONE"; Ent (txt " +91 98765 43210 ") "PHONE"])
           first_and_last_word (txt "call 9999999999")
           [Ent (txt "12345") "PHONE"] (Ent (txt " +91 98765 43210 ") "PHONE") []).
  - reflexivity.
  - reflexivity.
  - reflexivity.
  - intros e' He' _. apply list_elem_of_singleton in He'. by subst e'.
Defined.

(** X5. When no PHONE span is valid, the phone is what the fallback
    pattern finds in the text, provided it is valid, and empty otherwise:
    the fallback is tried once, on its first match only. *)
Theorem phone_from_text nlp HumanName text :
  (∀ e, e ∈ nlp text → label_ e = "PHONE" →
        is_valid_phone (strip (ent_text e)) = false) →
  ∃ d, extract_info_with_spacy_regex nlp HumanName text = Ok d ∧
       d !! "phone"
       = Some (VStr (match found pat_phone text with
                     | Some g => if is_valid_phone g then g else []
                     | None => []
                     end)).
Proof.
  intros Hents. eexists. split; [apply extract_info_fields|].
  rewrite lookup_phone, final_phone. unfold phone_of.
  rewrite first_some_none; [done|].
  intros x Hx. unfold phone_candidates in Hx.
  apply list_elem_of_fmap in Hx as (e' & -> & He').
  apply list_elem_of_filter in He' as [Hl' He'].
  unfold valid_phone. rewrite Hents; [done|done|by apply label_is_eq].
Qed.

(** A first match that is rejected hides a later number that is valid. *)
Lemma phone_from_text_witness :
  ∃ d, extract_info_with_spacy_regex (λ _, []) first_and_last_word
         (txt "id x+91 123456789012, tel 9876543210") = Ok d ∧
       d !! "phone" = Some (VStr []).
Proof.
  apply (phone_from_text (λ _, []) first_and_last_word
           (txt "id x+91 123456789012, tel 9876543210")).
  intros e He. by apply elem_of_nil in He.
Defined.

(** ** Spans that the program does not read *)

(** The labels that [extract_info_with_spacy_regex] tests for. *)
Definition read_label (e : ent) : Prop :=
  label_ e ∈ ["PERSON"; "GPE"; "LOC"; "SKILL"; "PHONE"].

Lemma step_unread r e : ¬ read_label e → step_fields r e = r.
Proof.
  intros H. unfold step_fields.
  assert (Hl : ∀ l, l ∈ ["PERSON"; "GPE"; "LOC"; "SKILL"; "PHONE"] →
                    label_is e l = false).
  { intros l Hl. apply not_true_is_false. intros Heq.
    apply label_is_eq in Heq. apply H. unfold read_label. by rewrite Heq. }
  rewrite !Hl by set_solver. done.
Qed.

Lemma foldl_read_spans ents :
  ∀ r, foldl step_fields r (filter read_label ents) = foldl step_fields r ents.
Proof.
  induction ents as [|e ents IH]; intros r; [done|].
  rewrite filter_cons. destruct (decide (read_label e)) as [He|He].
  - cbn [foldl]. apply IH.
  - cbn [foldl]. by rewrite step_unread, IH.
Qed.

Lemma phone_candidates_read_spans ents :
  phone_candidates (filter read_label ents) = phone_candidates ents.
Proof.
  unfold phone_candidates. f_equal.
  induction ents as [|e ents IH]; [done|].
  rewrite !filter_cons. destruct (decide (read_label e)) as [He|He].
  - rewrite filter_cons. by rewrite IH.
  - rewrite IH. rewrite decide_False; [done|].
    intros Hl. apply label_is_eq in Hl. apply He. unfold read_label.
    rewrite Hl. set_solver.
Qed.

(** X6. Only spans labelled PERSON, GPE, LOC, SKILL or PHONE count: with
    every other span removed from the recognizer's output the result is
    the same. *)
Theorem other_labels_are_ignored nlp HumanName text :
  extract_info_with_spacy_regex (λ t, filter read_label (nlp t)) HumanName text
  = extract_info_with_spacy_regex nlp HumanName text.
Proof.
  rewrite !extract_info_fields. do 2 f_equal. unfold final_fields.
  cbv zeta. unfold resolve_phone.
  by rewrite foldl_read_spans, phone_candidates_read_spans.
Qed.

(** ** The validator *)

Lemma digits_of_idemp s : digits_of (digits_of s) = digits_of s.
Proof.
  apply digits_of_digits. unfold digits_of.
  apply Forall_forall. intros c Hc. by apply list_elem_of_filter in Hc as [? _].
Qed.

Lemma digits_of_skip c s : is_digit c = false → digits_of (c :: s) = digits_of s.
Proof.
  intros Hc. unfold digits_of. rewrite filter_cons, decide_False; [done|].
  by rewrite Hc.
Qed.

(** X7. [is_valid_phone] looks at the digits only: a character that is
    not a digit can be put anywhere in a number, or taken out, without
    changing the answer. *)
Theorem is_valid_phone_ignores_non_digits s1 c s2 :
  is_digit c = false →
  is_valid_phone (s1 ++ c :: s2) = is_valid_phone (s1 ++ s2).
Proof.
  intros Hc. unfold is_valid_phone. rewrite !re_sub_non_digit.
  by rewrite !digits_of_app, digits_of_skip.
Qed.

Lemma is_valid_phone_ignores_non_digits_witness :
  is_valid_phone (txt "98765" ++ "-"%char :: txt "43210")
  = is_valid_phone (txt "98765" ++ txt "43210").
Proof.
  apply (is_valid_phone_ignores_non_digits (txt "98765") "-"%char (txt "43210")).
  reflexivity.
Defined.

(** Cleaning a number first does not change its validation: the string
    that [re.sub] leaves is valid exactly when the number is. *)
Lemma is_valid_phone_of_cleaned s :
  is_valid_phone (re_sub pat_non_digit [] s) = is_valid_phone s.
Proof.
  unfold is_valid_phone. by rewrite !re_sub_non_digit, digits_of_idemp.
Qed.

(** ** What a search returns *)

(** [s] occurs in [text]. *)
Definition piece_of (s text : str) : Prop := ∃ pre post, text = pre ++ s ++ post.

Lemma search_inv r text m :
  re_search r text = Some m →
  piece_of (group0 m) text ∧ lang r (group0 m).
Proof.
  intros H. apply search_from_attempt in H as (c & H & Hw).
  apply attempt_inv in H as (w & c' & [Ha _] & Hl & -> & _).
  split; [|done]. exists (rev (before c)), (after c').
  simpl in Hw. rewrite <- Hw. unfold whole. by rewrite Ha.
Qed.

Lemma found_inv r text g :
  found r text = Some g → piece_of g text ∧ lang r g.
Proof.
  unfold found. destruct (re_search r text) as [m|] eqn:Hm; [|done].
  intros [= <-]. by apply search_inv.
Qed.

(** A link of the result: absent, or a string that occurs in the text. *)
Definition piece_or_absent (o : option value) (text : str) : Prop :=
  match o with
  | Some (VStr s) => piece_of s text
  | Some (VList _) => False
  | None => True
  end.

(** X8. The email, linkedin and github of a result are never made up: an
    email that is not empty occurs in the text as it is and has the shape
    of the email pattern, and a link that is present occurs in the text as
    it is (in the letter case of the text). *)
Theorem found_fields_occur_in_text nlp HumanName text :
  ∃ d email,
    extract_info_with_spacy_regex nlp HumanName text = Ok d ∧
    d !! "email" = Some (VStr email) ∧
    (email = [] ∨ piece_of email text ∧ lang pat_email email) ∧
    piece_or_absent (d !! "linkedin") text ∧
    piece_or_absent (d !! "github") text.
Proof.
  eexists _, _. split; [apply extract_info_fields|].
  split; [apply lookup_email|].
  rewrite lookup_linkedin, lookup_github.
  pose proof (final_links nlp HumanName text) as Hl.
  injection Hl as -> ->. rewrite final_email. split_and!.
  - destruct (found pat_email text) as [g|] eqn:Hg; [right|by left].
    by apply found_inv in Hg.
  - destruct (found pat_linkedin text) as [g|] eqn:Hg; [|done].
    by apply found_inv in Hg as [? _].
  - destruct (found pat_github text) as [g|] eqn:Hg; [|done].
    by apply found_inv in Hg as [? _].
Qed.

Lemma email_has_at g : lang pat_email g → "@"%char ∈ g.
Proof.
  intros H. apply email_shape in H as (l & d & t & -> & _).
  apply elem_of_app. right. left.
Qed.

(** X9. A text without the character "@" has no email: the field stays
    the empty string. *)
Theorem no_at_no_email nlp HumanName text :
  Forall (λ c, c ≠ "@"%char) text →
  ∃ d, extract_info_with_spacy_regex nlp HumanName text = Ok d ∧
       d !! "email" = Some (VStr []).
Proof.
  intros Hat. eexists. split; [apply extract_info_fields|].
  rewrite lookup_email, final_email.
  destruct (found pat_email text) as [g|] eqn:Hg; [|done]. exfalso.
  apply found_inv in Hg as [(pre & post & ->) Hl].
  apply email_has_at in Hl.
  rewrite Forall_forall in Hat. apply (Hat "@"%char); [|done].
  apply elem_of_app. right. apply elem_of_app. by left.
Qed.

Lemma no_at_no_email_witness :
  ∃ d, extract_info_with_spacy_regex (λ _, []) first_and_last_word
         (txt "jane.doe (at) example.com") = Ok d ∧
       d !! "email" = Some (VStr []).
Proof.
  apply (no_at_no_email (λ _, []) first_and_last_word
           (txt "jane.doe (at) example.com")).
  repeat constructor; discriminate.
Defined.

(** ** The name fallbacks in general *)

(** A word of the name patterns under IGNORECASE: two letters or more, of
    either case. *)
Definition name_word (w : str) : Prop :=
  Forall (λ c, ci is_az c = true) w ∧ 2 ≤ length w.

(** One white-space character or more. *)
Definition blanks (sp : str) : Prop :=
  Forall (λ c, is_space c = true) sp ∧ 1 ≤ length sp.

Lemma name_word_inv w :
  name_word w →
  ∃ a w', w = a :: w' ∧ ci is_AZ a = true ∧
          Forall (λ c, ci is_az c = true) w' ∧ 1 ≤ length w'.
Proof.
  intros [Hall Hlen]. destruct Hall as [|a w' Ha Hall]; [simpl in Hlen; lia|].
  exists a, w'. rewrite capital_is_letter. simpl in Hlen.
  split_and!; [done..|lia].
Qed.

Lemma name_line_match w1 sp w2 rest :
  name_word w1 → blanks sp → name_word w2 → stops (ci is_az) rest →
  ∃ m, re_match pat_name_line (w1 ++ sp ++ w2 ++ rest) = Some m ∧
       group0 m = w1 ++ sp ++ w2.
Proof.
  intros H1 [Hsp Hsp1] H2 Hrest.
  apply name_word_inv in H1 as (a & v1 & -> & Ha & Hv1 & Hl1).
  apply name_word_inv in H2 as (b & v2 & -> & Hb & Hv2 & Hl2).
  eexists. split.
  - unfold re_match, attempt, pat_name_line. cbn [exec before after app].
    rewrite Ha. apply rep_go_greedy; [done| |done|].
    { destruct Hsp as [|s sp Hs _]; [simpl in Hsp1; lia|].
      simpl. by apply space_not_letter. }
    cbn [exec before after].
    apply rep_go_greedy; [done| |done|].
    { simpl. rewrite capital_is_letter in Hb.
      by apply letter_not_space. }
    cbn [exec before after app]. rewrite Hb.
    apply rep_go_greedy; [done..|]. reflexivity.
  - unfold group0. cbn [m_string m_start m_end].
    apply (moved_substr (Cursor [] _) _ (Cursor _ rest)). split.
    + cbn [after]. by rewrite <- !app_assoc.
    + cbn [before]. rewrite app_nil_r.
      change ((a :: v1) ++ sp ++ b :: v2) with ([a] ++ v1 ++ sp ++ [b] ++ v2).
      rewrite !rev_app_distr. simpl. by rewrite <- !app_assoc.
Qed.

Lemma name_of_line_words line w1 sp w2 rest :
  strip line = w1 ++ sp ++ w2 ++ rest →
  name_word w1 → blanks sp → name_word w2 → stops (ci is_az) rest →
  name_of_line line = Some (w1 ++ sp ++ w2).
Proof.
  intros Hline H1 Hsp H2 Hrest. unfold name_of_line. rewrite Hline.
  destruct (name_line_match w1 sp w2 rest H1 Hsp H2 Hrest) as (m & Hm & Hg).
  rewrite Hm. simpl. f_equal.
  unfold re_match in Hm. apply attempt_inv in Hm as (w & c' & _ & Hl & Hw & _).
  rewrite Hw in Hg. subst w. by apply name_line_strip in Hl as [-> _].
Qed.

(** X10. The first fallback. With no PERSON span, the first of the first
    ten lines that (trimmed) begins with a word, white space and a word
    gives the name: the two words with the white space between them. Under
    IGNORECASE a word is any run of two or more letters, capitalized or
    not. *)
Theorem name_from_two_words nlp HumanName text pre line post w1 sp w2 rest :
  (∀ e, e ∈ nlp text → label_ e ≠ "PERSON") →
  splitlines text = pre ++ line :: post →
  length pre < 10 →
  (∀ l, l ∈ pre → re_match pat_name_line (strip l) = None) →
  strip line = w1 ++ sp ++ w2 ++ rest →
  name_word w1 → blanks sp → name_word w2 → stops (ci is_az) rest →
  ∃ d, extract_info_with_spacy_regex nlp HumanName text = Ok d ∧
       d !! "name" = Some (VStr (w1 ++ sp ++ w2)) ∧
       d !! "First Name"
       = Some (VStr (strip (hn_first (HumanName (w1 ++ sp ++ w2))))) ∧
       d !! "Last Name"
       = Some (VStr (strip (hn_last (HumanName (w1 ++ sp ++ w2))))).
Proof.
  intros Hents Hlines Hlen Hpre Hline H1 Hsp H2 Hrest.
  eexists. split; [apply extract_info_fields|].
  rewrite lookup_name, lookup_first_name, lookup_last_name.
  rewrite final_name, final_first_last.
  pose proof (no_person_no_name _ Hents) as Hname.
  set (r1 := foldl step_fields fields0 (nlp text)) in *.
  assert (Hfirst : first_some name_of_line (take 10 (splitlines text))
                   = Some (w1 ++ sp ++ w2)).
  { rewrite Hlines, take_app, (take_ge pre) by lia.
    rewrite first_some_app.
    - destruct (10 - length pre) as [|n] eqn:Hn; [lia|].
      cbn [take first_some].
      by rewrite (name_of_line_words line w1 sp w2 rest).
    - intros l Hl. unfold name_of_line. by rewrite (Hpre l Hl). }
  assert (Hne : nonempty (w1 ++ sp ++ w2) = true).
  { destruct H1 as [_ H1]. destruct w1; [simpl in H1; lia|done]. }
  assert (Hres : resolve_names HumanName (splitlines text) r1
                 = with_parts HumanName (set_name (w1 ++ sp ++ w2) r1)).
  { unfold resolve_names. cbv zeta.
    repeat first [rewrite Hname | rewrite Hfirst
                 | progress cbn [nonempty with_name]].
    change (f_name (with_parts HumanName (set_name (w1 ++ sp ++ w2) r1)))
      with (w1 ++ sp ++ w2).
    by rewrite Hne. }
  rewrite Hres. done.
Qed.

Lemma name_from_two_words_witness :
  ∃ d, extract_info_with_spacy_regex (λ _, []) first_and_last_word
         (txt "2024" ++ newline :: txt "  john  smith, engineer") = Ok d ∧
       d !! "name" = Some (VStr (txt "john  smith")) ∧
       d !! "First Name" = Some (VStr (txt "john")) ∧
       d !! "Last Name" = Some (VStr (txt "smith")).
Proof.
  apply (name_from_two_words (λ _, []) first_and_last_word
           (txt "2024" ++ newline :: txt "  john  smith, engineer")
           [txt "2024"] (txt "  john  smith, engineer") []
           (txt "john") (txt "  ") (txt "smith") (txt ", engineer")).
  - intros e He. by apply elem_of_nil in He.
  - reflexivity.
  - simpl. lia.
  - intros l Hl. apply list_elem_of_singleton in Hl. by subst l.
  - reflexivity.
  - split; [by repeat constructor|simpl; lia].
  - split; [by repeat constructor|simpl; lia].
  - split; [by repeat constructor|simpl; lia].
  - reflexivity.
Defined.

(** The separators between the label and the name. *)
Definition label_sep (c : ascii) : bool := is_chr ":" c || is_space c.

Lemma letter_not_label_sep c : ci is_az c = true → label_sep c = false.
Proof. by_cases_on_char c. Qed.

(** The word "name" in any letter case. *)
Definition name_label (nm : str) : Prop :=
  Forall2 (λ x a, ci (is_chr x) a = true) (txt "name") nm.

Lemma name_label_match nm seps w1 s w2 rest :
  name_label nm →
  Forall (λ c, label_sep c = true) seps →
  name_word w1 → is_space s = true → name_word w2 →
  stops (ci is_az) rest →
  ∃ m, re_search pat_name_label (nm ++ seps ++ w1 ++ s :: w2 ++ rest) = Some m ∧
       cap1 m = w1 ++ s :: w2.
Proof.
  intros Hnm Hseps H1 Hs H2 Hrest.
  apply name_word_inv in H1 as (a & v1 & -> & Ha & Hv1 & Hl1).
  apply name_word_inv in H2 as (b & v2 & -> & Hb & Hv2 & Hl2).
  eexists. split.
  - apply search_from_hit. unfold attempt, pat_name_label.
    cbn [exec before after]. rewrite (exec_lit_ci "name" nm Hnm).
    cbn [before after]. fold label_sep.
    apply rep_go_greedy; [done| |simpl; lia|].
    { simpl. rewrite capital_is_letter in Ha.
      by apply letter_not_label_sep. }
    cbn [exec app].
    by apply exec_name_pair.
  - unfold cap1. cbn [m_caps m_string].
    set (c2 := Cursor (rev seps ++ rev nm ++ [])
                 ((a :: v1) ++ s :: (b :: v2) ++ rest)).
    set (c3 := Cursor (rev (a :: v1 ++ s :: b :: v2)
                       ++ rev seps ++ rev nm ++ []) rest).
    assert (Hmv : moved c2 ((a :: v1) ++ s :: b :: v2) c3).
    { split; [|done]. unfold c2, c3. cbn [after].
      by rewrite <- app_assoc. }
    rewrite <- (moved_substr _ _ _ Hmv). f_equal.
    unfold whole, c2. cbn [before after rev app].
    rewrite app_nil_r, rev_app_distr, !rev_involutive.
    by rewrite <- !app_assoc.
Qed.

(** X11. The second fallback. With no PERSON span and no match of the
    first fallback in the first ten lines, the first line that (trimmed)
    is the word "name" in any letter case, then any number of colons and
    white-space characters (none will do), then a word, exactly one
    white-space character and a word, gives the name: the two words
    with that character between them. *)
Theorem name_from_label nlp HumanName text pre line post
    nm seps w1 s w2 rest :
  (∀ e, e ∈ nlp text → label_ e ≠ "PERSON") →
  (∀ l, l ∈ take 10 (splitlines text) →
        re_match pat_name_line (strip l) = None) →
  splitlines text = pre ++ line :: post →
  (∀ l, l ∈ pre → re_search pat_name_label (strip l) = None) →
  strip line = nm ++ seps ++ w1 ++ s :: w2 ++ rest →
  name_label nm →
  Forall (λ c, label_sep c = true) seps →
  name_word w1 → is_space s = true → name_word w2 →
  stops (ci is_az) rest →
  ∃ d, extract_info_with_spacy_regex nlp HumanName text = Ok d ∧
       d !! "name" = Some (VStr (w1 ++ s :: w2)) ∧
       d !! "First Name"
       = Some (VStr (strip (hn_first (HumanName (w1 ++ s :: w2))))) ∧
       d !! "Last Name"
       = Some (VStr (strip (hn_last (HumanName (w1 ++ s :: w2))))).
Proof.
  intros Hents Hten Hlines Hpre Hline Hnm Hseps H1 Hs H2 Hrest.
  eexists. split; [apply extract_info_fields|].
  rewrite lookup_name, lookup_first_name, lookup_last_name.
  rewrite final_name, final_first_last.
  pose proof (no_person_no_name _ Hents) as Hname.
  set (r1 := foldl step_fields fields0 (nlp text)) in *.
  assert (Hf1 : first_some name_of_line (take 10 (splitlines text)) = None).
  { apply first_some_none. intros l Hl. unfold name_of_line.
    by rewrite (Hten l Hl). }
  assert (Hf2 : first_some name_of_label (splitlines text)
                = Some (w1 ++ s :: w2)).
  { rewrite Hlines, first_some_app.
    - cbn [first_some]. unfold name_of_label. rewrite Hline.
      destruct (name_label_match nm seps w1 s w2 rest Hnm Hseps H1 Hs H2 Hrest)
        as (m & Hm & Hc).
      rewrite Hm. cbn [fmap option_fmap option_map]. f_equal.
      apply name_label_group in Hm as [_ Hl]. rewrite Hc in Hl |- *.
      by apply name_pair_strip in Hl as [-> _].
    - intros l Hl. unfold name_of_label. by rewrite (Hpre l Hl). }
  assert (Hres : resolve_names HumanName (splitlines text) r1
                 = with_parts HumanName (set_name (w1 ++ s :: w2) r1)).
  { unfold resolve_names. cbv zeta.
    repeat first [rewrite Hname | rewrite Hf1 | rewrite Hf2
                 | progress cbn [nonempty with_name]].
    done. }
  rewrite Hres. done.
Qed.

Lemma name_from_label_witness :
  ∃ d, extract_info_with_spacy_regex (λ _, []) first_and_last_word
         (txt "Resume 2024" ++ newline :: txt "NAME : : ravi kumar (he)")
       = Ok d ∧
       d !! "name" = Some (VStr (txt "ravi kumar")) ∧
       d !! "First Name" = Some (VStr (txt "ravi")) ∧
       d !! "Last Name" = Some (VStr (txt "kumar")).
Proof.
  apply (name_from_label (λ _, []) first_and_last_word
           (txt "Resume 2024" ++ newline :: txt "NAME : : ravi kumar (he)")
           [txt "Resume 2024"] (txt "NAME : : ravi kumar (he)") []
           (txt "NAME") (txt " : : ") (txt "ravi") " "%char (txt "kumar")
           (txt " (he)")).
  - intros e He. by apply elem_of_nil in He.
  - intros l Hl. vm_compute in Hl.
    repeat (apply elem_of_cons in Hl as [->|Hl]; [reflexivity|]).
    by apply elem_of_nil in Hl.
  - reflexivity.
  - intros l Hl. apply list_elem_of_singleton in Hl. by subst l.
  - reflexivity.
  - by repeat constructor.
  - by repeat constructor.
  - split; [by repeat constructor|simpl; lia].
  - reflexivity.
  - split; [by repeat constructor|simpl; lia].
  - reflexivity.
Defined.

(** X12. When there is no PERSON span, no line among the first ten on
    which the first fallback matches and no line at all on which the
    second matches, no name is resolved: the name stays empty and the
    record has no name parts. *)
Theorem name_unresolved nlp HumanName text :
  (∀ e, e ∈ nlp text → label_ e ≠ "PERSON") →
  (∀ l, l ∈ take 10 (splitlines text) →
        re_match pat_name_line (strip l) = None) →
  (∀ l, l ∈ splitlines text →
        re_search pat_name_label (strip l) = None) →
  ∃ d, extract_info_with_spacy_regex nlp HumanName text = Ok d ∧
       d !! "name" = Some (VStr []) ∧
       d !! "First Name" = None ∧
       d !! "Last Name" = None.
Proof.
  intros Hents Hten Hall.
  eexists. split; [apply extract_info_fields|].
  rewrite lookup_name, lookup_first_name, lookup_last_name.
  rewrite final_name, final_first_last.
  pose proof (no_person_no_name _ Hents) as Hname.
  assert (Hfl : f_first_last (foldl step_fields fields0 (nlp text)) = None)
    by (by rewrite first_last_after_ents).
  set (r1 := foldl step_fields fields0 (nlp text)) in *.
  assert (Hf1 : first_some name_of_line (take 10 (splitlines text)) = None).
  { apply first_some_none. intros l Hl. unfold name_of_line.
    by rewrite (Hten l Hl). }
  assert (Hf2 : first_some name_of_label (splitlines text) = None).
  { apply first_some_none. intros l Hl. unfold name_of_label.
    by rewrite (Hall l Hl). }
  assert (Hres : resolve_names HumanName (splitlines text) r1 = r1).
  { unfold resolve_names. cbv zeta.
    repeat first [rewrite Hname | rewrite Hf1 | rewrite Hf2
                 | progress cbn [nonempty with_name]].
    done. }
  rewrite Hres, Hname, Hfl. done.
Qed.

(** Two words on line 11 come too late for the first fallback. *)
Lemma name_unresolved_witness :
  ∃ d, extract_info_with_spacy_regex (λ _, []) first_and_last_word
         (repeat newline 10 ++ txt "John Smith") = Ok d ∧
       d !! "name" = Some (VStr []) ∧
       d !! "First Name" = None ∧
       d !! "Last Name" = None.
Proof.
  apply (name_unresolved (λ _, []) first_and_last_word
           (repeat newline 10 ++ txt "John Smith")).
  - intros e He. by apply elem_of_nil in He.
  - intros l Hl. vm_compute in Hl.
    repeat (apply elem_of_cons in Hl as [->|Hl]; [reflexivity|]).
    by apply elem_of_nil in Hl.
  - intros l Hl. vm_compute in Hl.
    repeat (apply elem_of_cons in Hl as [->|Hl]; [reflexivity|]).
    by apply elem_of_nil in Hl.
Defined.

(** ** The PDF path, call by call *)

Section ServiceRuns.

Variable page : Type.
Variable nlp : str → list ent.
Variable HumanName : str → human_name.
Variable fitz_open : list Byte.byte → list page.
Variable get_text : page → str.
Variable image_to_string : page → str.
Variable exn_str : exn → str.







End ServiceRuns.


(** ** The two links *)

(** [w] is the literal [s] in some letter case. *)
Definition same_ci (s : string) (w : str) : Prop :=
  Forall2 (λ x a, ci (is_chr x) a = true) (txt s) w.

Lemma ci_chr_space x a :
  ci (is_chr x) a = true → is_space x = false → is_space a = false.
Proof.
  intros H Hx. unfold ci in H. apply orb_true_iff in H.
  destruct a as [[] [] [] [] [] [] [] []];
    (destruct H as [H|H]; apply is_chr_eq in H; subst x;
     vm_compute in Hx |- *; congruence).
Qed.

Lemma ci_chr_slash a : ci (is_chr "/") a = true → a = "/"%char.
Proof. by_cases_on_char a. Qed.

Lemma user_not_space a : ci user_char a = true → is_space a = false.
Proof. by_cases_on_char a. Qed.

Lemma l_not_h_w a :
  ci (is_chr "l") a = true →
  ci (is_chr "h") a = false ∧ ci (is_chr "w") a = false.
Proof. by_cases_on_char a. Qed.

Lemma g_not_h_w a :
  ci (is_chr "g") a = true →
  ci (is_chr "h") a = false ∧ ci (is_chr "w") a = false.
Proof. by_cases_on_char a. Qed.

Lemma w_not_h a : ci (is_chr "w") a = true → ci (is_chr "h") a = false.
Proof. by_cases_on_char a. Qed.

Lemma colon_not_s a : ci (is_chr ":") a = true → ci (is_chr "s") a = false.
Proof. by_cases_on_char a. Qed.

Lemma lang_lit_ci s w : lang (lit_ci s) w → same_ci s w.
Proof.
  unfold lit_ci, same_ci. revert w.
  induction (txt s) as [|x xs IH]; intros w; cbn [foldr lang].
  - intros ->. constructor.
  - intros (w1 & w2 & -> & (a & -> & Ha) & Hw2). constructor; [done|].
    by apply IH.
Qed.

Lemma same_ci_no_space s w :
  Forall (λ c, is_space c = false) (txt s) → same_ci s w →
  Forall (λ c, is_space c = false) w.
Proof.
  unfold same_ci. intros Hs H. induction H as [|x a xs w Hxa _ IH]; [done|].
  inversion Hs; subst. constructor; [by eapply ci_chr_space|by apply IH].
Qed.

Lemma same_ci_slash s w : "/"%char ∈ txt s → same_ci s w → "/"%char ∈ w.
Proof.
  unfold same_ci. intros Hs H. induction H as [|x a xs w Hxa _ IH].
  - by apply elem_of_nil in Hs.
  - apply elem_of_cons in Hs as [<-|Hs].
    + apply ci_chr_slash in Hxa as ->. left.
    + right. by apply IH.
Qed.

(** What a site pattern takes has no white space in it and has a slash. *)
Lemma site_lang site g :
  Forall (λ c, is_space c = false) (txt site) → "/"%char ∈ txt site →
  lang (pat_site site) g →
  Forall (λ c, is_space c = false) g ∧ "/"%char ∈ g.
Proof.
  intros Hns Hsl. unfold pat_site. cbn [lang].
  intros (w1 & r1 & -> & H1 & w2 & r2 & -> & H2 & w3 & w4 & -> & H3 & H4 & _).
  apply lang_lit_ci in H3.
  split.
  - rewrite !Forall_app. split_and!.
    + destruct H1 as [->|(h & r & -> & Hh & s & c & -> & (Hs & _) & Hc)];
        [done|].
      apply lang_lit_ci in Hh, Hc. rewrite !Forall_app. split_and!.
      * apply (same_ci_no_space "http"); [by repeat constructor|done].
      * eapply Forall_impl; [exact Hs|]. intros a Ha. simpl in Ha.
        by apply (ci_chr_space "s" a).
      * apply (same_ci_no_space "://"); [by repeat constructor|done].
    + destruct H2 as [->|H2]; [done|]. apply lang_lit_ci in H2.
      apply (same_ci_no_space "www."); [by repeat constructor|done].
    + by apply (same_ci_no_space site).
    + eapply Forall_impl; [exact H4|]. intros a Ha. by apply user_not_space.
  - rewrite !elem_of_app. right. right. left. by eapply same_ci_slash.
Qed.

Lemma no_space_run p s rest g tail :
  Forall (λ c, c ≠ "/"%char) p →
  is_space s = true →
  Forall (λ c, is_space c = false) g → "/"%char ∈ g →
  p ++ s :: rest = g ++ tail →
  False.
Proof.
  intros Hp Hs. revert g. induction Hp as [|x p Hx Hp IH]; intros g Hg Hsl Heq.
  - destruct Hg as [|a g Ha Hg]; [by apply elem_of_nil in Hsl|].
    simpl in Heq. injection Heq as -> _. congruence.
  - destruct Hg as [|a g Ha Hg]; [by apply elem_of_nil in Hsl|].
    simpl in Heq. injection Heq as -> Heq.
    apply elem_of_cons in Hsl as [Hsl|Hsl]; [by subst|].
    by eapply IH.
Qed.

Lemma site_attempt_fails site bef p s rest :
  Forall (λ c, is_space c = false) (txt site) → "/"%char ∈ txt site →
  Forall (λ c, c ≠ "/"%char) p →
  is_space s = true →
  attempt false (pat_site site) (Cursor bef (p ++ s :: rest)) = None.
Proof.
  intros Hns Hsl Hp Hs.
  destruct (attempt _ _ _) as [m|] eqn:Hm; [|done]. exfalso.
  apply attempt_inv in Hm as (w & c' & [Ha _] & Hw & _).
  apply (site_lang site w Hns Hsl) in Hw as [Hw1 Hw2].
  simpl in Ha. by eapply no_space_run.
Qed.

(** The parts of a site pattern. *)
Definition scheme_group : regex :=
  Grp 1 (Seq (lit_ci "http")
           (Seq (Rep (ci (is_chr "s")) 0 (Some 1)) (lit_ci "://"))).
Definition www_group : regex := Grp 2 (lit_ci "www.").
Definition site_tail (site : string) : regex :=
  Seq (lit_ci site) (Rep (ci user_char) 1 None).

Lemma pat_site_parts site :
  pat_site site
  = Seq (Opt scheme_group) (Seq (Opt www_group) (site_tail site)).
Proof. reflexivity. Qed.

Lemma exec_seq {R} r1 r2 c g (k : cursor → caps → option R) :
  exec (Seq r1 r2) c g k = exec r1 c g (λ c' g', exec r2 c' g' k).
Proof. reflexivity. Qed.

Lemma exec_opt {R} r1 c g (k : cursor → caps → option R) :
  exec (Opt r1) c g k
  = match exec r1 c g k with Some x => Some x | None => k c g end.
Proof. reflexivity. Qed.

Lemma exec_grp {R} i r1 c g (k : cursor → caps → option R) :
  exec (Grp i r1) c g k
  = exec r1 c g (λ c' g', k c' ((i, (pos c, pos c')) :: g')).
Proof. reflexivity. Qed.

(** A literal fails on a first character that is not its own. *)
Lemma exec_lit_ci_fails {R} x s a aft bef g (k : cursor → caps → option R) :
  ci (is_chr x) a = false →
  exec (lit_ci (String x s)) (Cursor bef (a :: aft)) g k = None.
Proof.
  intros Ha. unfold lit_ci. cbn [txt list_ascii_of_string foldr exec after].
  by rewrite Ha.
Qed.

Lemma exec_site_tail {R} site w u rest bef g (k : cursor → caps → option R) :
  same_ci site w →
  Forall (λ c, ci user_char c = true) u → 1 ≤ length u →
  stops (ci user_char) rest →
  is_Some (k (Cursor (rev u ++ rev w ++ bef) rest) g) →
  exec (site_tail site) (Cursor bef (w ++ u ++ rest)) g k
  = k (Cursor (rev u ++ rev w ++ bef) rest) g.
Proof.
  intros Hw Hu Hu1 Hrest [res Hres]. unfold site_tail.
  rewrite exec_seq, (exec_lit_ci site w Hw). cbn [exec before after].
  rewrite Hres. by apply rep_go_greedy.
Qed.

(** The word of a site pattern begins with neither "h" nor "w". *)
Definition site_head (w : str) : Prop :=
  match w with
  | x :: _ => ci (is_chr "h") x = false ∧ ci (is_chr "w") x = false
  | [] => False
  end.

Definition www_of (www : str) : Prop := www = [] ∨ same_ci "www." www.

Definition scheme_of (sc : str) : Prop :=
  sc = [] ∨ same_ci "http://" sc ∨ same_ci "https://" sc.

(** The captures after the optional "www." group. *)
Definition www_caps (www bef : str) (g : caps) : caps :=
  match www with
  | [] => g
  | _ => (2, (length bef, length (rev www ++ bef))) :: g
  end.

Lemma exec_www_tail {R} site www w u rest bef g
    (k : cursor → caps → option R) :
  www_of www → same_ci site w → site_head w →
  Forall (λ c, ci user_char c = true) u → 1 ≤ length u →
  stops (ci user_char) rest →
  (∀ g', is_Some (k (Cursor (rev u ++ rev w ++ rev www ++ bef) rest) g')) →
  exec (Seq (Opt www_group) (site_tail site))
    (Cursor bef (www ++ w ++ u ++ rest)) g k
  = k (Cursor (rev u ++ rev w ++ rev www ++ bef) rest) (www_caps www bef g).
Proof.
  intros [->|Hwww] Hw Hhead Hu Hu1 Hrest Hk; rewrite exec_seq, exec_opt.
  - cbn [app rev www_caps] in *. unfold www_group. rewrite exec_grp.
    destruct w as [|x w']; [done|]. destruct Hhead as [_ Hx].
    cbn [app]. rewrite (exec_lit_ci_fails "w" "ww." x) by done.
    by apply (exec_site_tail site (x :: w')).
  - unfold www_group. rewrite exec_grp.
    rewrite (exec_lit_ci "www." www Hwww).
    rewrite (exec_site_tail site w) by done.
    assert (Hc : www_caps www bef g
                 = (2, (pos (Cursor bef (www ++ w ++ u ++ rest)),
                        pos (Cursor (rev www ++ bef) (w ++ u ++ rest)))) :: g).
    { inversion Hwww; subst. reflexivity. }
    rewrite Hc. destruct (Hk ((2, (pos (Cursor bef (www ++ w ++ u ++ rest)),
                       pos (Cursor (rev www ++ bef) (w ++ u ++ rest)))) :: g))
      as [res Hres].
    by rewrite Hres.
Qed.

Lemma www_or_site_head www w :
  www_of www → site_head w →
  ∃ x tl, www ++ w = x :: tl ∧ ci (is_chr "h") x = false.
Proof.
  intros [->|Hwww] Hhead.
  - destruct w as [|x w']; [done|]. destruct Hhead as [Hh _]. by eexists _, _.
  - inversion Hwww as [|? x ? tl Hx _]; subst. apply w_not_h in Hx.
    by eexists _, _.
Qed.

Lemma exec_rep {R} p lo hi c g (k : cursor → caps → option R) :
  exec (Rep p lo hi) c g k
  = rep_go p lo hi (before c) (after c) (λ b a, k (Cursor b a) g).
Proof. reflexivity. Qed.

Lemma exec_site {R} site sc www w u rest bef g
    (k : cursor → caps → option R) :
  scheme_of sc → www_of www → same_ci site w → site_head w →
  Forall (λ c, ci user_char c = true) u → 1 ≤ length u →
  stops (ci user_char) rest →
  (∀ g', is_Some
           (k (Cursor (rev u ++ rev w ++ rev www ++ rev sc ++ bef) rest) g')) →
  ∃ g', exec (pat_site site) (Cursor bef (sc ++ www ++ w ++ u ++ rest)) g k
        = k (Cursor (rev u ++ rev w ++ rev www ++ rev sc ++ bef) rest) g'.
Proof.
  intros Hsc Hwww Hw Hhead Hu Hu1 Hrest Hk.
  rewrite pat_site_parts, exec_seq, exec_opt.
  unfold scheme_group at 1. rewrite exec_grp, exec_seq.
  destruct Hsc as [->|[Hsc|Hsc]].
  - cbn [app rev] in *. eexists.
    destruct (www_or_site_head www w Hwww Hhead) as (x & tl & Htl & Hx).
    rewrite app_assoc, Htl. cbn [app].
    rewrite (exec_lit_ci_fails "h" "ttp" x) by done.
    change (x :: tl ++ u ++ rest) with ((x :: tl) ++ u ++ rest).
    rewrite <- Htl, <- app_assoc.
    by apply exec_www_tail.
  - unfold same_ci in Hsc.
    change (txt "http://") with (txt "http" ++ txt "://") in Hsc.
    apply Forall2_app_inv_l in Hsc as (s1 & s2 & Hs1 & Hs2 & ->).
    assert (Hk' : ∀ g', is_Some
              (k (Cursor (rev u ++ rev w ++ rev www ++ rev s2 ++ rev s1 ++ bef)
                    rest) g')).
    { intros g'. specialize (Hk g').
      by rewrite rev_app_distr, <- !app_assoc in Hk. }
    rewrite rev_app_distr, <- !app_assoc.
    rewrite (exec_lit_ci "http" s1 Hs1). cbv beta.
    rewrite exec_seq, exec_rep. cbn [before after].
    inversion Hs2 as [|? c1 ? s2' Hc1 Hs2']; subst.
    cbn [app rep_go]. rewrite (colon_not_s c1 Hc1). cbn [andb].
    change (c1 :: s2' ++ www ++ w ++ u ++ rest)
      with ((c1 :: s2') ++ www ++ w ++ u ++ rest).
    rewrite (exec_lit_ci "://" (c1 :: s2') Hs2). cbv beta.
    rewrite exec_www_tail by done.
    match goal with
    | |- ∃ g', match k ?c ?gg with Some _ => _ | None => _ end = _ =>
        exists gg; destruct (Hk' gg) as [res Hres]; by rewrite Hres
    end.
  - unfold same_ci in Hsc.
    change (txt "https://") with (txt "http" ++ txt "s://") in Hsc.
    apply Forall2_app_inv_l in Hsc as (s1 & s2 & Hs1 & Hs2 & ->).
    inversion Hs2 as [|? cs ? s3 Hcs Hs3]; subst.
    assert (Hk' : ∀ g', is_Some
              (k (Cursor (rev u ++ rev w ++ rev www ++ rev s3 ++ cs :: rev s1 ++ bef)
                    rest) g')).
    { intros g'. specialize (Hk g').
      rewrite rev_app_distr in Hk. cbn [rev] in Hk.
      rewrite <- !app_assoc in Hk. cbn [app] in Hk. exact Hk. }
    rewrite rev_app_distr. cbn [rev]. rewrite <- !app_assoc. cbn [app].
    rewrite (exec_lit_ci "http" s1 Hs1). cbv beta.
    rewrite exec_seq, exec_rep. cbn [before after].
    inversion Hs3 as [|? c1 ? s3' Hc1 Hs3']; subst.
    cbn [app rep_go]. rewrite Hcs.
    cbn [andb can_more fmap option_fmap option_map pred].
    rewrite andb_false_r.
    change (c1 :: s3' ++ www ++ w ++ u ++ rest)
      with ((c1 :: s3') ++ www ++ w ++ u ++ rest).
    rewrite (exec_lit_ci "://" (c1 :: s3') Hs3). cbv beta.
    rewrite exec_www_tail by done.
    match goal with
    | |- context [k (Cursor ?b rest) ?gg] =>
        exists gg; destruct (Hk' gg) as [res Hres]; by rewrite Hres
    end.
Qed.

(** A link of a site: perhaps "http://" or "https://", perhaps "www.",
    the site in any letter case and a token of one or more letters, digits,
    underscores and hyphens. *)
Definition link_of (site : string) (l : str) : Prop :=
  ∃ sc www w u,
    l = sc ++ www ++ w ++ u ∧ scheme_of sc ∧ www_of www ∧ same_ci site w ∧
    Forall (λ c, ci user_char c = true) u ∧ 1 ≤ length u.

Lemma site_found site pre l rest :
  Forall (λ c, is_space c = false) (txt site) → "/"%char ∈ txt site →
  (∀ w, same_ci site w → site_head w) →
  link_of site l →
  Forall (λ c, c ≠ "/"%char) pre → blank_start (rev pre) →
  stops (ci user_char) rest →
  found (pat_site site) (pre ++ l ++ rest) = Some l.
Proof.
  intros Hns Hsl Hhead (sc & www & w & u & -> & Hsc & Hwww & Hw & Hu & Hu1)
    Hpre Hends Hrest.
  unfold found, re_search. rewrite search_from_skip.
  2:{ intros p1 p2 -> Hp2.
      destruct (rev p2) as [|s q] eqn:Hq.
      { apply (f_equal (@rev _)) in Hq. rewrite rev_involutive in Hq. done. }
      apply (f_equal (@rev _)) in Hq. rewrite rev_involutive in Hq.
      simpl in Hq. subst p2.
      rewrite rev_app_distr, rev_app_distr, rev_involutive in Hends.
      simpl in Hends. rewrite <- app_assoc. simpl.
      apply site_attempt_fails; [done..| |done].
      apply Forall_app in Hpre as [_ Hpre].
      by apply Forall_app in Hpre as [Hpre _]. }
  rewrite app_nil_r.
  set (c := Cursor (rev pre) ((sc ++ www ++ w ++ u) ++ rest)).
  set (c' := Cursor (rev u ++ rev w ++ rev www ++ rev sc ++ rev pre) rest).
  assert (Hmv : moved c (sc ++ www ++ w ++ u) c').
  { split; [done|]. unfold c, c'. cbn [before].
    by rewrite !rev_app_distr, <- !app_assoc. }
  assert (Hat : ∃ g', attempt false (pat_site site) c
                      = Some (Match (whole c) (pos c) (pos c') g'
                                (ngroups (pat_site site)))).
  { unfold attempt, c. rewrite <- !app_assoc.
    destruct (exec_site site sc www w u rest (rev pre) []
                (λ c'0 g,
                   if false && (pos c'0 =? pos (Cursor (rev pre)
                                  (sc ++ www ++ w ++ u ++ rest)))
                   then None
                   else Some (Match (whole (Cursor (rev pre)
                                       (sc ++ www ++ w ++ u ++ rest)))
                                (pos (Cursor (rev pre)
                                        (sc ++ www ++ w ++ u ++ rest)))
                                (pos c'0) g (ngroups (pat_site site))))
                Hsc Hwww Hw (Hhead w Hw) Hu Hu1 Hrest) as (g' & Hg').
    { intros g'. by eexists. }
    exists g'. rewrite Hg'. cbn [andb]. unfold c'.
    reflexivity. }
  destruct Hat as (g' & Hat). fold c. rewrite (search_from_hit _ _ _ _ Hat).
  cbn [fmap option_fmap option_map]. f_equal.
  unfold group0. cbn [m_string m_start m_end]. by apply moved_substr.
Qed.

Lemma final_linkedin nlp HumanName text :
  f_linkedin (final_fields nlp HumanName text) = found pat_linkedin text.
Proof.
  pose proof (final_links nlp HumanName text) as H. by injection H.
Qed.

Lemma final_github nlp HumanName text :
  f_github (final_fields nlp HumanName text) = found pat_github text.
Proof.
  pose proof (final_links nlp HumanName text) as H. by injection H.
Qed.

(** X15. A LinkedIn link is found in any letter case and kept as the text
    has it. When the text before the link has no slash and is empty or ends
    in white space, and the link (optional scheme, optional "www.",
    "linkedin.com/in/", token) is followed by nothing or by a character
    that cannot continue the token, the linkedin of the result is the
    whole link. *)
Theorem linkedin_is_the_link nlp HumanName pre l rest :
  link_of "linkedin.com/in/" l →
  Forall (λ c, c ≠ "/"%char) pre → blank_start (rev pre) →
  stops (ci user_char) rest →
  ∃ d, extract_info_with_spacy_regex nlp HumanName (pre ++ l ++ rest) = Ok d ∧
       d !! "linkedin" = Some (VStr l).
Proof.
  intros Hl Hpre Hends Hrest. eexists. split; [apply extract_info_fields|].
  rewrite lookup_linkedin, final_linkedin. unfold pat_linkedin.
  rewrite (site_found "linkedin.com/in/" pre l rest); try done.
  - by repeat constructor.
  - set_solver.
  - intros w Hw. inversion Hw as [|? x ? tl Hx _]; subst.
    by apply l_not_h_w in Hx.
Qed.

Lemma linkedin_is_the_link_witness :
  ∃ d, extract_info_with_spacy_regex (λ _, []) first_and_last_word
         (txt "Profile: " ++ txt "HTTPS://www.LinkedIn.com/IN/jane-doe_1"
          ++ txt "/details") = Ok d ∧
       d !! "linkedin"
       = Some (VStr (txt "HTTPS://www.LinkedIn.com/IN/jane-doe_1")).
Proof.
  apply (linkedin_is_the_link (λ _, []) first_and_last_word
           (txt "Profile: ") (txt "HTTPS://www.LinkedIn.com/IN/jane-doe_1")
           (txt "/details")).
  - exists (txt "HTTPS://"), (txt "www."), (txt "LinkedIn.com/IN/"),
      (txt "jane-doe_1").
    split_and!; [reflexivity| | | | |simpl; lia].
    + right. right. by repeat constructor.
    + right. by repeat constructor.
    + by repeat constructor.
    + by repeat constructor.
  - repeat constructor; discriminate.
  - reflexivity.
  - reflexivity.
Defined.

(** X16. The same for GitHub, whose pattern has no "/in/" part: the
    github of the result is the link up to the end of the user token. *)
Theorem github_is_the_link nlp HumanName pre l rest :
  link_of "github.com/" l →
  Forall (λ c, c ≠ "/"%char) pre → blank_start (rev pre) →
  stops (ci user_char) rest →
  ∃ d, extract_info_with_spacy_regex nlp HumanName (pre ++ l ++ rest) = Ok d ∧
       d !! "github" = Some (VStr l).
Proof.
  intros Hl Hpre Hends Hrest. eexists. split; [apply extract_info_fields|].
  rewrite lookup_github, final_github. unfold pat_github.
  rewrite (site_found "github.com/" pre l rest); try done.
  - by repeat constructor.
  - set_solver.
  - intros w Hw. inversion Hw as [|? x ? tl Hx _]; subst.
    by apply g_not_h_w in Hx.
Qed.

Lemma github_is_the_link_witness :
  ∃ d, extract_info_with_spacy_regex (λ _, []) first_and_last_word
         (txt "code at " ++ txt "GitHub.com/octo-cat"
          ++ txt "/repo.git") = Ok d ∧
       d !! "github" = Some (VStr (txt "GitHub.com/octo-cat")).
Proof.
  apply (github_is_the_link (λ _, []) first_and_last_word
           (txt "code at ") (txt "GitHub.com/octo-cat") (txt "/repo.git")).
  - exists [], [], (txt "GitHub.com/"), (txt "octo-cat").
    split_and!; [reflexivity|by left|by left| | |simpl; lia].
    + by repeat constructor.
    + by repeat constructor.
  - repeat constructor; discriminate.
  - reflexivity.
  - reflexivity.
Defined.

(** ** A run of digits as the phone *)

Lemma rep_go_greedy_bounded {R} p (k : str → str → option R) res aft' w :
  Forall (λ a, p a = true) w →
  stops p aft' →
  ∀ lo h bef,
    lo ≤ length w → length w ≤ h →
    k (rev w ++ bef) aft' = Some res →
    rep_go p lo (Some h) bef (w ++ aft') k = Some res.
Proof.
  intros Hall Hstop.
  induction Hall as [|a w Hp Hall IH]; intros lo h bef Hlo Hhi Hk.
  - simpl in *. assert (lo = 0) as -> by lia.
    destruct aft' as [|b aft']; cbn [rep_go]; [done|].
    simpl in Hstop. by rewrite Hstop.
  - cbn [app rep_go]. rewrite Hp.
    destruct h as [|h]; [simpl in Hhi; lia|]. cbn [can_more andb].
    change (pred <$> Some (S h)) with (Some h).
    rewrite (IH (pred lo) h (a :: bef)); [done|simpl in Hlo; lia| |].
    + simpl in Hhi. lia.
    + simpl in Hk. by rewrite <- app_assoc in Hk.
Qed.

Lemma digit_is_word' c : is_digit c = true → is_word c = true.
Proof. by_cases_on_char c. Qed.

Lemma digit_not_plus c : is_digit c = true → is_chr "+" c = false.
Proof. by_cases_on_char c. Qed.

Lemma word_not_digit_stop rest : stops is_word rest → stops is_digit rest.
Proof.
  destruct rest as [|c rest]; [done|]. simpl. intros Hc.
  destruct (is_digit c) eqn:Hd; [|done].
  apply digit_is_word' in Hd. congruence.
Qed.

(** No attempt of the phone pattern succeeds inside text that has no
    digit and ends in white space. *)
Lemma phone_run_in_pre p s rest w tail :
  Forall (λ c, is_digit c = false) p →
  is_space s = true →
  lang pat_phone w →
  p ++ s :: rest = w ++ tail →
  False.
Proof.
  intros Hp Hs Hw Heq.
  apply phone_shape in Hw as (pre & ds & -> & Hpre & Hds & Hlo & _).
  destruct Hpre as [->|(seps & -> & _)].
  - destruct Hds as [|d ds Hd _]; [simpl in Hlo; lia|].
    simpl in Heq. destruct p as [|x p]; simpl in Heq; injection Heq as -> _.
    + by vm_compute in Hs; destruct d as [[] [] [] [] [] [] [] []].
    + inversion Hp; subst. congruence.
  - cbn [txt list_ascii_of_string app] in Heq.
    destruct p as [|x p]; simpl in Heq; injection Heq as -> Heq.
    + by vm_compute in Hs.
    + destruct p as [|y p]; simpl in Heq; injection Heq as -> _.
      * by vm_compute in Hs.
      * inversion Hp as [|? ? _ Hp']; subst. inversion Hp'; subst.
        by vm_compute in *.
Qed.

Lemma phone_attempt_fails bef p s rest :
  Forall (λ c, is_digit c = false) p →
  is_space s = true →
  attempt false pat_phone (Cursor bef (p ++ s :: rest)) = None.
Proof.
  intros Hp Hs. destruct (attempt _ _ _) as [m|] eqn:Hm; [|done]. exfalso.
  apply attempt_inv in Hm as (w & c' & [Ha _] & Hw & _).
  simpl in Ha. by eapply phone_run_in_pre.
Qed.

Lemma phone_found pre ds rest :
  Forall (λ c, is_digit c = false) pre → blank_start (rev pre) →
  Forall (λ c, is_digit c = true) ds →
  10 ≤ length ds → length ds ≤ 13 →
  stops is_word rest →
  found pat_phone (pre ++ ds ++ rest) = Some ds.
Proof.
  intros Hpre Hends Hds Hlo Hhi Hrest.
  unfold found, re_search. rewrite search_from_skip.
  2:{ intros p1 p2 -> Hp2.
      destruct (rev p2) as [|s q] eqn:Hq.
      { apply (f_equal (@rev _)) in Hq. rewrite rev_involutive in Hq. done. }
      apply (f_equal (@rev _)) in Hq. rewrite rev_involutive in Hq.
      simpl in Hq. subst p2.
      rewrite rev_app_distr, rev_app_distr, rev_involutive in Hends.
      simpl in Hends. rewrite <- app_assoc. simpl.
      apply phone_attempt_fails; [|done].
      apply Forall_app in Hpre as [_ Hpre].
      by apply Forall_app in Hpre as [Hpre _]. }
  rewrite app_nil_r.
  set (c := Cursor (rev pre) (ds ++ rest)).
  set (c' := Cursor (rev ds ++ rev pre) rest).
  assert (Hat : attempt false pat_phone c
                = Some (Match (whole c) (pos c) (pos c') [] 0)).
  { destruct Hds as [|d ds Hd Hds]; [simpl in Hlo; lia|].
    unfold attempt, pat_phone, c. cbn [exec].
    assert (at_boundary (Cursor (rev pre) ((d :: ds) ++ rest)) = true) as ->.
    { unfold at_boundary.
      replace (word_before (Cursor (rev pre) ((d :: ds) ++ rest))) with false
        by (symmetry; by apply (blank_not_word (rev pre))).
      unfold word_after. cbn [after app]. by rewrite (digit_is_word' d). }
    unfold lit. cbn [txt list_ascii_of_string foldr exec after before app].
    rewrite (digit_not_plus d Hd).
    change (d :: ds ++ rest) with ((d :: ds) ++ rest).
    apply rep_go_greedy_bounded;
      [by constructor|by apply word_not_digit_stop|done..|].
    assert (at_boundary (Cursor (rev (d :: ds) ++ rev pre) rest) = true) as ->.
    { unfold at_boundary, word_before, word_after. cbn [before after].
      assert (Hl : starts_with is_word (rev (d :: ds) ++ rev pre)).
      { apply word_ends; [|simpl; lia].
        assert (Hdd : Forall (λ c, is_digit c = true) (d :: ds))
          by (by constructor).
        eapply Forall_impl; [exact Hdd|].
        intros a Ha. by apply digit_is_word'. }
      destruct (rev (d :: ds) ++ rev pre) as [|z q]; [done|].
      simpl in Hl. rewrite Hl.
      destruct rest as [|y rest]; [done|]. simpl in Hrest. by rewrite Hrest. }
    reflexivity. }
  fold c. rewrite (search_from_hit _ _ _ _ Hat).
  cbn [fmap option_fmap option_map]. f_equal.
  unfold group0. cbn [m_string m_start m_end]. by apply moved_substr.
Qed.

Lemma no_valid_candidate ents :
  (∀ e, e ∈ ents → label_ e = "PHONE" →
        is_valid_phone (strip (ent_text e)) = false) →
  first_some valid_phone (phone_candidates ents) = None.
Proof.
  intros Hents. apply first_some_none.
  intros x Hx. unfold phone_candidates in Hx.
  apply list_elem_of_fmap in Hx as (e' & -> & He').
  apply list_elem_of_filter in He' as [Hl' He'].
  unfold valid_phone. rewrite Hents; [done|done|by apply label_is_eq].
Qed.

(** X17. With no valid PHONE span, a run of 10 to 13 digits that stands
    after text with no digit in it (empty, or ending in white space) and
    before nothing or a character that is not a word character is the
    phone of the result. *)
Theorem phone_is_the_digit_run nlp HumanName pre ds rest :
  (∀ e, e ∈ nlp (pre ++ ds ++ rest) → label_ e = "PHONE" →
        is_valid_phone (strip (ent_text e)) = false) →
  Forall (λ c, is_digit c = false) pre → blank_start (rev pre) →
  Forall (λ c, is_digit c = true) ds →
  10 ≤ length ds → length ds ≤ 13 →
  stops is_word rest →
  ∃ d, extract_info_with_spacy_regex nlp HumanName (pre ++ ds ++ rest) = Ok d ∧
       d !! "phone" = Some (VStr ds).
Proof.
  intros Hents Hpre Hends Hds Hlo Hhi Hrest.
  eexists. split; [apply extract_info_fields|].
  rewrite lookup_phone, final_phone. unfold phone_of.
  rewrite (no_valid_candidate _ Hents).
  rewrite (phone_found pre ds rest) by done.
  assert (Hv : is_valid_phone ds = true).
  { unfold is_valid_phone. rewrite re_sub_non_digit, digits_of_digits by done.
    apply andb_true_iff. split; by apply Nat.leb_le. }
  by rewrite Hv.
Qed.

Lemma phone_is_the_digit_run_witness :
  ∃ d, extract_info_with_spacy_regex (λ _, [Ent (txt "n/a") "PHONE"])
         first_and_last_word
         (txt "Mobile: " ++ txt "9876543210" ++ txt ".") = Ok d ∧
       d !! "phone" = Some (VStr (txt "9876543210")).
Proof.
  apply (phone_is_the_digit_run (λ _, [Ent (txt "n/a") "PHONE"])
           first_and_last_word (txt "Mobile: ") (txt "9876543210") (txt ".")).
  - intros e He _. apply list_elem_of_singleton in He. by subst e.
  - by repeat constructor.
  - reflexivity.
  - by repeat constructor.
  - simpl; lia.
  - simpl; lia.
  - reflexivity.
Defined.

(** ** The word boundaries of the email pattern *)

Lemma non_word_before lead pre aft :
  Forall (λ c, is_word c = false) lead → blank_start (rev pre) →
  word_before (Cursor (rev lead ++ rev pre) aft) = false.
Proof.
  intros Hlead Hpre. unfold word_before. cbn [before].
  apply Forall_rev in Hlead.
  destruct (rev lead) as [|c q]; cbn [app].
  - destruct (rev pre) as [|s q]; [done|]. by apply space_not_word.
  - by inversion Hlead.
Qed.

Lemma email_attempt_at_word bef l d t post :
  word_before (Cursor bef []) = false →
  stops email_tail post → stops is_word post →
  starts_with is_word (l ++ "@"%char :: d ++ "."%char :: t) →
  starts_with is_word (rev (l ++ "@"%char :: d ++ "."%char :: t)) →
  Forall (λ c, email_local c = true) l → 1 ≤ length l →
  Forall (λ c, email_domain c = true) d → 1 ≤ length d →
  Forall (λ c, email_tail c = true) t → 1 ≤ length t →
  let c := Cursor bef ((l ++ "@"%char :: d ++ "."%char :: t) ++ post) in
  let c' := Cursor (rev (l ++ "@"%char :: d ++ "."%char :: t) ++ bef) post in
  attempt false pat_email c = Some (Match (whole c) (pos c) (pos c') [] 0).
Proof.
  intros Hbef Hpost Hpostw Hfirst Hlast Hl Hl1 Hd Hd1 Ht Ht1 c c'.
  unfold attempt, pat_email. cbn [exec].
  assert (at_boundary c = true) as ->.
  { unfold at_boundary.
    change (word_before c) with (word_before (Cursor bef [])). rewrite Hbef.
    unfold word_after, c. cbn [after].
    destruct l as [|x l]; [simpl in Hl1; lia|]. simpl in *. by rewrite Hfirst. }
  unfold c at 1 2. cbn [before after].
  rewrite <- app_assoc. cbn [app]. rewrite <- app_assoc. cbn [app].
  apply rep_go_greedy; [done|by vm_compute|done|].
  cbn [exec before after]. change (is_chr "@" "@") with true. cbv iota.
  apply rep_go_greedy; [done|by vm_compute|done|].
  cbn [exec before after]. change (is_chr "." ".") with true. cbv iota.
  apply rep_go_greedy; [done..|].
  cbn [exec].
  assert (Hb : rev t ++ "."%char :: rev d ++ "@"%char :: rev l ++ bef
               = rev (l ++ "@"%char :: d ++ "."%char :: t) ++ bef).
  { rewrite rev_app_distr. simpl. rewrite rev_app_distr. simpl.
    by rewrite <- !app_assoc. }
  rewrite Hb. fold c'.
  assert (at_boundary c' = true) as ->.
  { unfold at_boundary, word_before, word_after, c'. cbn [before after].
    destruct (rev (l ++ "@"%char :: d ++ "."%char :: t)) as [|z q]; [done|].
    simpl in Hlast. cbn [app]. rewrite Hlast.
    destruct post as [|y post]; [done|]. simpl in Hpostw. by rewrite Hpostw. }
  cbn [andb]. done.
Qed.

Lemma email_no_boundary bef aft :
  at_boundary (Cursor bef aft) = false →
  attempt false pat_email (Cursor bef aft) = None.
Proof. intros H. unfold attempt, pat_email. cbn [exec]. by rewrite H. Qed.

(** X18. The two [\b] of the email pattern cut the address at word
    characters. An address that the pattern accepts in full is the email
    also when characters that are not word characters stand right before
    it, even ones the local part may contain ("-", "+", "."), and when
    it is followed by a character that is neither a word character nor a
    character of the last class: those characters are left out. *)
Theorem email_without_non_word_edges nlp HumanName pre lead a post :
  well_formed_email a →
  Forall (λ c, c ≠ "@"%char) pre → blank_start (rev pre) →
  Forall (λ c, is_word c = false) lead →
  stops email_tail post → stops is_word post →
  ∃ d, extract_info_with_spacy_regex nlp HumanName
         (pre ++ lead ++ a ++ post) = Ok d ∧
       d !! "email" = Some (VStr a).
Proof.
  intros (Hlang & Hfirst & Hlast) Hpre Hends Hlead Hpost Hpostw.
  eexists. split; [apply extract_info_fields|].
  rewrite lookup_email, final_email. unfold found, re_search.
  rewrite search_from_skip.
  2:{ intros p1 p2 -> Hp2.
      destruct (rev p2) as [|s q] eqn:Hq.
      { apply (f_equal (@rev _)) in Hq. rewrite rev_involutive in Hq. done. }
      apply (f_equal (@rev _)) in Hq. rewrite rev_involutive in Hq.
      simpl in Hq. subst p2.
      rewrite rev_app_distr, rev_app_distr, rev_involutive in Hends.
      simpl in Hends. rewrite <- app_assoc. simpl.
      apply email_attempt_fails; [|done].
      apply Forall_app in Hpre as [_ Hpre].
      by apply Forall_app in Hpre as [Hpre _]. }
  rewrite app_nil_r, search_from_skip.
  2:{ intros l1 l2 -> Hl2. apply email_no_boundary.
      apply Forall_app in Hlead as [Hl1 Hl2'].
      unfold at_boundary. rewrite (non_word_before l1 pre) by done.
      unfold word_after. cbn [after].
      destruct l2 as [|x l2]; [done|]. cbn [app]. by inversion Hl2'. }
  apply email_shape in Hlang as (l & d & t & -> & Hl & Hl1 & Hd & Hd1 & Ht & Ht1).
  erewrite search_from_hit.
  2:{ apply email_attempt_at_word; try done.
      change (word_before (Cursor (rev lead ++ rev pre) []) = false).
      by apply non_word_before. }
  cbn [fmap option_fmap option_map default]. f_equal. f_equal.
  unfold group0. cbn [m_string m_start m_end]. by apply moved_substr.
Qed.

Lemma email_without_non_word_edges_witness :
  ∃ d, extract_info_with_spacy_regex (λ _, []) first_and_last_word
         (txt "mail " ++ txt "<-" ++ txt "jane.doe@example.com" ++ txt ">")
       = Ok d ∧
       d !! "email" = Some (VStr (txt "jane.doe@example.com")).
Proof.
  apply (email_without_non_word_edges (λ _, []) first_and_last_word
           (txt "mail ") (txt "<-") (txt "jane.doe@example.com") (txt ">")).
  - apply (well_formed_email_intro (txt "jane.doe") (txt "example") (txt "com"));
      try (by repeat constructor); simpl; lia.
  - repeat constructor; discriminate.
  - reflexivity.
  - by repeat constructor.
  - reflexivity.
  - reflexivity.
Defined.

(** ** The outcomes of the PDF endpoint *)

